(** * SvelteModel: the observable model container of [src/lib/Model.ts]

    A shallow embedding of [createModel] and of the operations it returns
    ([subscribe], [update], [mutate], [set], [get], [load], [initialized]),
    together with the part of [svelte/store]'s [writable] they are built on.

    The container is stateful and talks to caller-supplied callbacks, so the
    embedding is a state monad over a record [Model]; every call of a
    callback, every console message and every store assignment is appended
    to a chronological [trace]. *)

From stdpp Require Import base option list strings gmap pretty.

#[local] Set Warnings "-register-all".
#[local] Open Scope Z_scope.
#[local] Open Scope string_scope.
#[local] Open Scope list_scope.

(** ** JavaScript values

    The Model Value [T] is generic; at run time it is any JavaScript value.
    The embedding covers JSON-like data: the primitives and objects with
    enumerable, writable, string-keyed data properties.  [VObj o] is a plain
    object (an object literal, a result of [JSON.parse]): own properties
    [o], prototype [Object.prototype].  [VObjP proto o] is an object whose
    prototype has been replaced by [proto], which is [null] or an object;
    the container produces one only through the inherited [__proto__]
    setter.  Arrays and functions are outside the value domain.  Numbers
    are the integer-valued ones, plus [NaN]; a string is a sequence of code
    units below 256, one [ascii] each.

    Values are compared and copied by content.  JavaScript objects have an
    identity and are shared: the store, the callbacks and the readiness
    promise can hold the same object, and [mutate] writes into it in place.
    The embedding records in each field and each event the content at the
    time it is written. *)
Inductive JsVal :=
| VUndefined
| VNull
| VBool (b : bool)
| VNum (n : Z)
| VNaN
| VStr (s : string)
| VObj (o : gmap string JsVal)
| VObjP (proto : JsVal) (o : gmap string JsVal).

(** [!!v]: what [if (v)] tests.  The falsy values are the "empty/absent"
    ones of the specification. *)
Definition truthy (v : JsVal) : bool :=
  match v with
  | VUndefined | VNull | VNaN => false
  | VBool b => b
  | VNum n => negb (Z.eqb n 0)
  | VStr s => negb (String.eqb s "")
  | VObj _ | VObjP _ _ => true
  end.

Definition is_object (v : JsVal) : bool :=
  match v with VObj _ | VObjP _ _ => true | _ => false end.

Definition is_null (v : JsVal) : bool :=
  match v with VNull => true | _ => false end.

Definition is_nan (v : JsVal) : bool :=
  match v with VNaN => true | _ => false end.

(** [a === b] on primitives.  Two objects are compared by reference, which
    the value domain does not record: [strict_equal] answers [false] there,
    and its only user [safe_not_equal] does not depend on that answer. *)
Definition strict_equal (a b : JsVal) : bool :=
  match a, b with
  | VUndefined, VUndefined => true
  | VNull, VNull => true
  | VBool x, VBool y => Bool.eqb x y
  | VNum x, VNum y => Z.eqb x y
  | VStr x, VStr y => String.eqb x y
  | _, _ => false
  end.

(** Own enumerable properties, each paired with the value a read [o[k]]
    gives.  [Object.keys] throws on [undefined] and [null] ([None]); a
    string has one property per code unit, keyed by its index.  For an
    object, [Object.keys] lists integer-like keys in ascending order and
    then the others in insertion order; a finite map does not record
    insertion, and the entries come here in the traversal order of the map.
    The statements below are about what does not depend on that order. *)
Definition own_entries (m : JsVal) : option (list (string * JsVal)) :=
  match m with
  | VUndefined | VNull => None
  | VBool _ | VNum _ | VNaN => Some []
  | VStr s =>
      Some (imap (λ i c, (pretty i, VStr (String c EmptyString)))
                 (String.list_ascii_of_string s))
  | VObj o | VObjP _ o => Some (map_to_list o)
  end.

(** What a property lookup along the prototype chain finds. *)
Inductive Property :=
| data_property      (* a writable data property *)
| proto_accessor.    (* the [__proto__] accessor of [Object.prototype] *)

(** The data properties of [Object.prototype] (its methods), as the
    engine provides it. *)
Definition OBJECT_PROTOTYPE_METHODS : list string :=
  ["constructor"; "__defineGetter__"; "__defineSetter__"; "hasOwnProperty";
   "__lookupGetter__"; "__lookupSetter__"; "isPrototypeOf";
   "propertyIsEnumerable"; "toString"; "valueOf"; "toLocaleString"].

Definition Object_prototype (k : string) : option Property :=
  if bool_decide (k = "__proto__") then Some proto_accessor
  else if bool_decide (k ∈ OBJECT_PROTOTYPE_METHODS) then Some data_property
  else None.

(** The property [k] of the object [v]: an own one first, then along the
    prototype chain.  [k in v] holds when there is one. *)
Fixpoint find_property (v : JsVal) (k : string) : option Property :=
  match v with
  | VObj o =>
      if bool_decide (is_Some (o !! k)) then Some data_property
      else Object_prototype k
  | VObjP proto o =>
      if bool_decide (is_Some (o !! k)) then Some data_property
      else find_property proto k
  | _ => None
  end.

(** [k in v], for an object [v]. *)
Definition has_property (v : JsVal) (k : string) : bool :=
  bool_decide (is_Some (find_property v k)).

(** [v[k] = x] when [k] is a data property of [v]: an own property is
    overwritten, an inherited one is shadowed by a new own property. *)
Definition put (v : JsVal) (k : string) (x : JsVal) : JsVal :=
  match v with
  | VObj o => VObj (<[k := x]> o)
  | VObjP proto o => VObjP proto (<[k := x]> o)
  | _ => v
  end.

(** [v.__proto__ = x] through the accessor of [Object.prototype]: the
    prototype of [v] becomes [x] when [x] is an object or [null], and
    nothing happens otherwise.  (The setter refuses a chain that would
    loop back to [v]; that needs the identity of objects and does not
    arise for values compared by content.) *)
Definition set_prototype (v x : JsVal) : JsVal :=
  if is_object x || is_null x then
    match v with
    | VObj o | VObjP _ o => VObjP x o
    | _ => v
    end
  else v.

(** ** Configuration *)

Definition SaveFunction := string.     (* name of the caller's save callback *)
Definition MutateFunction := string.   (* name of the caller's merge callback *)
Definition OnInitCallback := string.
(** The value the n-th invocation (counted from 0) of the caller's load
    function resolves to. *)
Definition LoadFunction := nat → JsVal.

Record ModelOptions := {
  allowUndefinedData : option bool;
  loadOnCreate : option bool;
  saveFn : option SaveFunction;
  loadFn : option LoadFunction;
  mutateFn : option MutateFunction;
  onInitialized : option OnInitCallback
}.

Definition DEFAULT_OPTS : ModelOptions := {|
  allowUndefinedData := Some false;
  loadOnCreate := Some true;
  saveFn := None;
  loadFn := None;
  mutateFn := None;
  onInitialized := None
|}.

(** A property of the object literal [{ ...a, ...b }]: the later spread
    wins wherever it has the property. *)
Definition spread_prop {A} (a b : option A) : option A :=
  match b with Some _ => b | None => a end.

Definition spread (a b : ModelOptions) : ModelOptions := {|
  allowUndefinedData := spread_prop (allowUndefinedData a) (allowUndefinedData b);
  loadOnCreate := spread_prop (loadOnCreate a) (loadOnCreate b);
  saveFn := spread_prop (saveFn a) (saveFn b);
  loadFn := spread_prop (loadFn a) (loadFn b);
  mutateFn := spread_prop (mutateFn a) (mutateFn b);
  onInitialized := spread_prop (onInitialized a) (onInitialized b)
|}.

(** [let opts = options ? { ...options, ...DEFAULT_OPTS } : DEFAULT_OPTS] *)
Definition merge_opts (options : option ModelOptions) : ModelOptions :=
  match options with
  | Some o => spread o DEFAULT_OPTS
  | None => DEFAULT_OPTS
  end.

(** Truthiness of an optional boolean property ([undefined] when unset). *)
Definition flag (b : option bool) : bool := default false b.

(** ** State and effects *)

Inductive Event :=
| EWarn (msg : string)                         (* console.warn(msg) *)
| ETrace (msg : string)                        (* console.trace(msg) *)
| ESave (f : SaveFunction) (v : JsVal)         (* opts.saveFn(v) *)
| ELoad                                        (* opts.loadFn() *)
| EMutateFn (f : MutateFunction) (m : JsVal)   (* opts.mutateFn(m) *)
| EStore (v : JsVal)                           (* writable: value = v *)
| ENotify (sub : nat) (v : JsVal).             (* subscriber sub run with v *)

(** The state of a promise.  [Resolved v] records the content of [v] at
    settlement; an object among them is the very object given to the
    store, and what [mutate] writes into it later is not followed here. *)
Inductive Promise :=
| Pending
| Resolved (v : JsVal)
| Rejected (v : JsVal).

Record Model := {
  opts : ModelOptions;
  value : JsVal;                 (* the writable's current value *)
  subscribers : list nat;        (* in subscription order *)
  loads : nat;                   (* invocations of opts.loadFn so far *)
  suspended : gmap nat JsVal;    (* loads in flight: invocation number and
                                    the value its promise will resolve to *)
  awaited : option nat;          (* the load INITIALIZED is waiting for *)
  initialized : Promise;         (* INITIALIZED *)
  trace : list Event
}.

Inductive Completion (A : Type) :=
| Normal (a : A)
| Throw (e : string).
Arguments Normal {A} a.
Arguments Throw {A} e.

(** A computation runs from a state to a completion and a state; a thrown
    exception keeps the effects made before it. *)
Definition M (A : Type) : Type := Model → Completion A * Model.

#[global] Instance M_ret : MRet M := λ A a σ, (Normal a, σ).

#[global] Instance M_bind : MBind M := λ A B k c σ,
  match c σ with
  | (Normal a, σ') => k a σ'
  | (Throw e, σ') => (Throw e, σ')
  end.

Definition throw {A} (e : string) : M A := λ σ, (Throw e, σ).

Definition read {A} (f : Model → A) : M A := λ σ, (Normal (f σ), σ).

(** The state with [es] appended to its trace, and the state with the
    store's value replaced. *)
Definition log (es : list Event) (σ : Model) : Model :=
  {| opts := opts σ; value := value σ; subscribers := subscribers σ;
     loads := loads σ; suspended := suspended σ; awaited := awaited σ;
     initialized := initialized σ; trace := trace σ ++ es |}.

Definition with_value (v : JsVal) (σ : Model) : Model :=
  {| opts := opts σ; value := v; subscribers := subscribers σ;
     loads := loads σ; suspended := suspended σ; awaited := awaited σ;
     initialized := initialized σ; trace := trace σ |}.

Definition emit (e : Event) : M unit := λ σ, (Normal (), log [e] σ).

Fixpoint emit_all (es : list Event) : M unit :=
  match es with
  | [] => mret ()
  | e :: es' => emit e;; emit_all es'
  end.

(** [value = v] inside the writable. *)
Definition assign (v : JsVal) : M unit := λ σ,
  (Normal (), log [EStore v] (with_value v σ)).

Definition set_subscribers (l : list nat) : M unit := λ σ,
  (Normal (),
   {| opts := opts σ; value := value σ; subscribers := l;
      loads := loads σ; suspended := suspended σ; awaited := awaited σ;
      initialized := initialized σ; trace := trace σ |}).

Definition set_suspended (n : nat) (l : gmap nat JsVal) : M unit := λ σ,
  (Normal (),
   {| opts := opts σ; value := value σ; subscribers := subscribers σ;
      loads := n; suspended := l; awaited := awaited σ;
      initialized := initialized σ; trace := trace σ |}).

Definition await (n : nat) : M unit := λ σ,
  (Normal (),
   {| opts := opts σ; value := value σ; subscribers := subscribers σ;
      loads := loads σ; suspended := suspended σ; awaited := Some n;
      initialized := initialized σ; trace := trace σ |}).

(** [resolve]/[reject] of the [INITIALIZED] promise: only the first
    settlement counts. *)
Definition settle (p : Promise) : M unit := λ σ,
  (Normal (),
   {| opts := opts σ; value := value σ; subscribers := subscribers σ;
      loads := loads σ; suspended := suspended σ; awaited := awaited σ;
      initialized := match initialized σ with Pending => p | q => q end;
      trace := trace σ |}).

Fixpoint remove_occurrence (run i : nat) (subs : list nat) : list nat :=
  match subs with
  | [] => []
  | r :: rest =>
      if bool_decide (r = run) then
        match i with
        | O => rest
        | S i' => r :: remove_occurrence run i' rest
        end
      else r :: remove_occurrence run i rest
  end.

(** ** [svelte/store]: [writable]

    The store the container wraps.  Subscribers are opaque callbacks: a run
    of one is an [ENotify] event. *)
Module Writable.

(** [a != a ? b == b : a !== b || (a && typeof a === 'object')
    || typeof a === 'function'] *)
Definition safe_not_equal (a b : JsVal) : bool :=
  if is_nan a then negb (is_nan b)
  else negb (strict_equal a b) || is_object a.

Definition set (new_value : JsVal) : M unit :=
  v ← read value;
  if safe_not_equal v new_value then
    assign new_value;;
    subs ← read subscribers;
    emit_all (map (λ run, ENotify run new_value) subs)
  else mret ().

(** [update(fn) { set(fn(value)) }] *)
Definition update (fn : JsVal → M JsVal) : M unit :=
  v ← read value;
  new_value ← fn v;
  set new_value.

Definition subscribe (run : nat) : M unit :=
  subs ← read subscribers;
  set_subscribers (subs ++ [run]);;
  v ← read value;
  emit (ENotify run v).

(** The handle a [subscribe] of [run] returned.  It deletes its own
    subscription and no other: here the [i]-th (from 0) of the
    subscriptions of [run] still in the list.  It does nothing when that
    subscription is gone. *)
Definition unsubscribe (run i : nat) : M unit :=
  subs ← read subscribers;
  set_subscribers (remove_occurrence run i subs).

End Writable.

(** ** [createModel] *)

Definition MSG_NO_LOADFN : string :=
  "[MODEL] Trying to load model data without a 'loadFn' option!".
Definition MSG_UNDEFINED : string :=
  "[MODEL] Trying to set undefined data without 'allowUndefinedData = true' option!".
Definition MSG_UNKNOWN_KEY (k : string) : string :=
  "[MODEL] Trying to mutate model with unknown key '" +:+ k +:+ "'!".
(** The engine's [TypeError] texts, without the key and value they quote. *)
Definition TYPE_ERROR_KEYS : string :=
  "TypeError: Cannot convert undefined or null to object".
Definition TYPE_ERROR_IN : string :=
  "TypeError: Cannot use 'in' operator to search for a key in a non-object".

(** [cLoad] up to its [await opts.loadFn()].  The result stands for the
    promise [cLoad] returns: the number of the load it is suspended on, or
    [None] for the promise already resolved with [undefined]. *)
Definition cLoad : M (option nat) :=
  o ← read opts;
  match loadFn o with
  | None => emit (EWarn MSG_NO_LOADFN);; mret None
  | Some f =>
      n ← read loads;
      l ← read suspended;
      emit ELoad;;
      set_suspended (S n) (<[n := f n]> l);;
      mret (Some n)
  end.

(** The rest of [cLoad], run once the load has resolved to [loadedData]. *)
Definition cLoad_resume (loadedData : JsVal) : M JsVal :=
  if truthy loadedData then
    Writable.set loadedData;;
    mret loadedData
  else mret VUndefined.

(** [if (opts.saveFn) opts.saveFn(v)]; the returned promise is dropped. *)
Definition call_saveFn (v : JsVal) : M unit :=
  o ← read opts;
  match saveFn o with
  | Some f => emit (ESave f v)
  | None => mret ()
  end.

Definition cSet (data : JsVal) : M unit :=
  o ← read opts;
  if negb (truthy data) && negb (flag (allowUndefinedData o)) then
    emit (EWarn MSG_UNDEFINED);;
    emit (ETrace MSG_UNDEFINED)
  else
    Writable.set data;;
    call_saveFn data.

Definition cUpdate (updater : JsVal → JsVal) : M unit :=
  Writable.update (λ v,
    let v := updater v in
    call_saveFn v;;
    mret v).

(** The body of [Object.keys(mutation).forEach((k) => ...)], over the
    entries [(k, mutation[k])]; [v] is assigned in place, so it is threaded
    through.  [k in v] throws unless [v] is an object, and looks [k] up
    along the prototype chain. *)
Fixpoint forEach_key (entries : list (string * JsVal)) (v : JsVal) : M JsVal :=
  match entries with
  | [] => mret v
  | (k, x) :: rest =>
      if is_object v then
        match find_property v k with
        | Some data_property => forEach_key rest (put v k x)
        | Some proto_accessor => forEach_key rest (set_prototype v x)
        | None =>
            emit (EWarn (MSG_UNKNOWN_KEY k));;
            emit (ETrace (MSG_UNKNOWN_KEY k));;
            forEach_key rest v
        end
      else throw TYPE_ERROR_IN
  end.

Definition mutate (mutation : JsVal) : M unit :=
  o ← read opts;
  match mutateFn o with
  | Some f => emit (EMutateFn f mutation)
  | None =>
      Writable.update (λ v,
        match own_entries mutation with
        | None => throw TYPE_ERROR_KEYS
        | Some entries =>
            v' ← forEach_key entries v;
            call_saveFn v';;
            mret v'
        end)
  end.

(** The executor of [INITIALIZED] after its [await cLoad()] gave [l]. *)
Definition INITIALIZED_resume (l : JsVal) : M unit :=
  if truthy l then settle (Resolved l) else settle (Rejected VUndefined).

(** The executor of [INITIALIZED], up to its [await cLoad()]. *)
Definition INITIALIZED : M unit :=
  o ← read opts;
  if flag (loadOnCreate o) && bool_decide (is_Some (loadFn o)) then
    p ← cLoad;
    match p with
    | Some n => await n
    | None => INITIALIZED_resume VUndefined
    end
  else settle (Resolved (VObj ∅)).

(** The promise of load number [n] resolves: [cLoad] runs to its end and,
    when [INITIALIZED] awaits this load, so does the executor (the two
    continuations are consecutive microtasks and are run as one step).
    Nothing happens for a load that is not in flight. *)
Definition resume (n : nat) : M unit :=
  l ← read suspended;
  match l !! n with
  | None => mret ()
  | Some loadedData =>
      k ← read loads;
      set_suspended k (delete n l);;
      r ← cLoad_resume loadedData;
      a ← read awaited;
      if bool_decide (a = Some n) then INITIALIZED_resume r else mret ()
  end.

Definition createModel (options : option ModelOptions) : Model :=
  (INITIALIZED {| opts := merge_opts options; value := VUndefined;
                  subscribers := []; loads := 0; suspended := ∅;
                  awaited := None; initialized := Pending; trace := [] |}).2.

(** [get: async () => await get(store)] *)
Definition get (σ : Model) : JsVal := value σ.

(** What a client can do with the returned container, and what the event
    loop does for it. *)
Inductive Call :=
| call_subscribe (run : nat)
| call_unsubscribe (run i : nat)
| call_update (updater : JsVal → JsVal)
| call_mutate (mutation : JsVal)
| call_set (data : JsVal)
| call_load
| load_resolves (n : nat).

Definition step (c : Call) : M unit :=
  match c with
  | call_subscribe run => Writable.subscribe run
  | call_unsubscribe run i => Writable.unsubscribe run i
  | call_update updater => cUpdate updater
  | call_mutate mutation => mutate mutation
  | call_set data => cSet data
  | call_load => cLoad;; mret ()
  | load_resolves n => resume n
  end.

Definition exec (c : Call) (σ : Model) : Model := (step c σ).2.

Definition run (cs : list Call) (σ : Model) : Model :=
  foldl (λ σ c, exec c σ) σ cs.

(** The events a computation adds to the trace. *)
Definition emitted {A} (c : M A) (σ : Model) : list Event :=
  drop (length (trace σ)) (trace (c σ).2).


(** ** Vocabulary of the statements *)

(** What [Writable.set v] adds to the trace in state [σ]: the assignment
    and one notification per subscriber, or nothing when the store finds
    the value unchanged. *)
Definition commit_events (σ : Model) (v : JsVal) : list Event :=
  if Writable.safe_not_equal (value σ) v
  then EStore v :: map (λ run, ENotify run v) (subscribers σ)
  else [].

(** What [if (opts.saveFn) opts.saveFn(v)] adds to the trace. *)
Definition save_events (σ : Model) (v : JsVal) : list Event :=
  match saveFn (opts σ) with
  | Some f => [ESave f v]
  | None => []
  end.

(** The console messages of the default [mutate] for the entries whose key
    is not a property of the object [v]. *)
Definition unknown_key_events (v : JsVal)
    (entries : list (string * JsVal)) : list Event :=
  flat_map (λ kx, if bool_decide (is_Some (find_property v kx.1)) then []
                  else [EWarn (MSG_UNKNOWN_KEY kx.1);
                        ETrace (MSG_UNKNOWN_KEY kx.1)]) entries.

(** The values passed to the save function, in call order. *)
Definition saved (es : list Event) : list JsVal :=
  omap (λ e, match e with ESave _ v => Some v | _ => None end) es.

Definition is_notify (e : Event) : bool :=
  match e with ENotify _ _ => true | _ => false end.

Definition is_save (e : Event) : bool :=
  match e with ESave _ _ => true | _ => false end.

(** Every notification of a subscriber comes before every call of save. *)
Definition notified_before_saved (es : list Event) : Prop :=
  ∀ i j e e', es !! i = Some e → es !! j = Some e' →
    is_notify e = true → is_save e' = true → (i < j)%nat.

(** Every call of save comes before every notification of a subscriber. *)
Definition saved_before_notified (es : list Event) : Prop :=
  ∀ i j e e', es !! i = Some e → es !! j = Some e' →
    is_save e = true → is_notify e' = true → (i < j)%nat.

(** A call that, made in state [σ], is not an [update] whose transform
    returns an empty value on the store's current value. *)
Definition populating (c : Call) (σ : Model) : Prop :=
  match c with
  | call_update updater => truthy (updater (value σ)) = true
  | _ => True
  end.

(** Every call of the sequence is [populating] in the state it is made
    in. *)
Fixpoint populating_run (cs : list Call) (σ : Model) : Prop :=
  match cs with
  | [] => True
  | c :: cs' => populating c σ ∧ populating_run cs' (exec c σ)
  end.

(** Whether auto-load is on for the caller: [loadOnCreate] defaults to
    [true]. *)
Definition requests_autoload (o : ModelOptions) : bool :=
  default true (loadOnCreate o).

(** Whether a promise is pending, fulfilled or rejected, whatever value it
    carries. *)
Inductive Settlement := pending | fulfilled | rejected.

Definition settlement (p : Promise) : Settlement :=
  match p with
  | Pending => pending
  | Resolved _ => fulfilled
  | Rejected _ => rejected
  end.

Definition is_console (e : Event) : bool :=
  match e with EWarn _ | ETrace _ => true | _ => false end.

(** The three write paths of the container. *)
Definition write_path (c : Call) : Prop :=
  match c with
  | call_set _ | call_update _ | call_mutate _ => True
  | _ => False
  end.

(** ** Sample configurations *)

Definition no_options : ModelOptions := {|
  allowUndefinedData := None; loadOnCreate := None; saveFn := None;
  loadFn := None; mutateFn := None; onInitialized := None
|}.

(** [{ saveFn: save }] *)
Definition saving : ModelOptions := {|
  allowUndefinedData := None; loadOnCreate := None; saveFn := Some "save";
  loadFn := None; mutateFn := None; onInitialized := None
|}.

(** [{ allowUndefinedData: false, saveFn: save }] *)
Definition strict_saving : ModelOptions := {|
  allowUndefinedData := Some false; loadOnCreate := None; saveFn := Some "save";
  loadFn := None; mutateFn := None; onInitialized := None
|}.

(** [{ allowUndefinedData: true, saveFn: save }] *)
Definition allowing_undefined : ModelOptions := {|
  allowUndefinedData := Some true; loadOnCreate := None; saveFn := Some "save";
  loadFn := None; mutateFn := None; onInitialized := None
|}.

(** [{ mutateFn: merge, saveFn: save }] *)
Definition custom_merge : ModelOptions := {|
  allowUndefinedData := None; loadOnCreate := None; saveFn := Some "save";
  loadFn := None; mutateFn := Some "merge"; onInitialized := None
|}.

(** [{ loadOnCreate: b, loadFn: async () => v }] *)
Definition loading (b : bool) (v : JsVal) : ModelOptions := {|
  allowUndefinedData := None; loadOnCreate := Some b; saveFn := None;
  loadFn := Some (λ _, v); mutateFn := None; onInitialized := None
|}.

(** Whether the caller asked for [allowUndefinedData] at construction. *)
Definition requests_undefined (options : option ModelOptions) : bool :=
  match options with
  | Some o => flag (allowUndefinedData o)
  | None => false
  end.

(** [INITIALIZED] is still pending on the first load, which is in flight
    and will resolve to [v]. *)
Definition awaiting_first_load (v : JsVal) (σ : Model) : Prop :=
  awaited σ = Some 0%nat
  ∧ suspended σ !! 0%nat = Some v
  ∧ initialized σ = Pending
  ∧ (1 ≤ loads σ)%nat.

(** What a call [c] made in state [σ] may add to the trace: console
    messages freely; a save only from a write path, by the configured
    function and with the value the store ends with; a load only from
    [load()]; the merge callback only from [mutate]; an assignment or a
    notification only with the value the store ends with, the notification
    going to a subscriber or to the callback being subscribed. *)
Definition may_emit (c : Call) (σ : Model) (e : Event) : Prop :=
  match e with
  | EWarn _ | ETrace _ => True
  | ESave f v =>
      saveFn (opts σ) = Some f ∧ write_path c ∧ v = value (exec c σ)
  | ELoad => c = call_load ∧ is_Some (loadFn (opts σ))
  | EMutateFn f m => c = call_mutate m ∧ mutateFn (opts σ) = Some f
  | EStore v => v = value (exec c σ)
  | ENotify r v =>
      v = value (exec c σ) ∧ (r ∈ subscribers σ ∨ c = call_subscribe r)
  end.

(** The state a load in flight leaves when it resolves to [ld], up to the
    trace: the value is [ld] if populated, the load is no longer in flight,
    and [INITIALIZED] settles if it was pending on this load. *)
Definition resumed (n : nat) (ld : JsVal) (σ : Model) : Model :=
  {| opts := opts σ;
     value := if truthy ld then ld else value σ;
     subscribers := subscribers σ;
     loads := loads σ;
     suspended := delete n (suspended σ);
     awaited := awaited σ;
     initialized :=
       if bool_decide (awaited σ = Some n) then
         match initialized σ with
         | Pending => if truthy ld then Resolved ld else Rejected VUndefined
         | q => q
         end
       else initialized σ;
     trace := trace σ |}.

(** [{ saveFn: save, loadFn: async () => v }] *)
Definition persistent (v : JsVal) : ModelOptions := {|
  allowUndefinedData := None; loadOnCreate := None; saveFn := Some "save";
  loadFn := Some (λ _, v); mutateFn := None; onInitialized := None
|}.

(** ** The monad and the store *)

Ltac unfold_M :=
  unfold mbind, M_bind, mret, M_ret, read, emit, assign, throw in *; simpl in *.

Lemma log_nil σ : log [] σ = σ.
Proof. destruct σ. unfold log. simpl. by rewrite app_nil_r. Qed.

Lemma log_log es es' σ : log es' (log es σ) = log (es ++ es') σ.
Proof. unfold log. simpl. by rewrite app_assoc. Qed.

Lemma with_value_id σ : with_value (value σ) σ = σ.
Proof. by destruct σ. Qed.

Lemma emit_all_eq es σ : emit_all es σ = (Normal (), log es σ).
Proof.
  revert σ. induction es as [|e es IH]; intros σ; simpl.
  - by rewrite log_nil.
  - unfold_M. by rewrite IH, log_log.
Qed.

Lemma emitted_log {A} (c : M A) σ σ' es :
  (c σ).2 = log es σ' → trace σ' = trace σ → emitted c σ = es.
Proof.
  intros Hc Ht. unfold emitted. rewrite Hc. simpl. rewrite Ht.
  by rewrite drop_app_length.
Qed.

Lemma safe_not_equal_false a b : Writable.safe_not_equal a b = false → a = b.
Proof.
  unfold Writable.safe_not_equal.
  destruct a, b; simpl; try discriminate; try reflexivity; intros H;
    apply orb_false_elim in H as [H _]; apply negb_false_iff in H.
  - by apply Bool.eqb_prop in H as ->.
  - by apply Z.eqb_eq in H as ->.
  - by apply String.eqb_eq in H as ->.
Qed.

Lemma set_eq v σ :
  Writable.set v σ = (Normal (), log (commit_events σ v) (with_value v σ)).
Proof.
  unfold Writable.set, commit_events. unfold_M.
  destruct (Writable.safe_not_equal (value σ) v) eqn:E.
  - unfold_M. by rewrite emit_all_eq, log_log.
  - apply safe_not_equal_false in E as <-. by rewrite with_value_id, log_nil.
Qed.

(** ** The write paths, as equations

    The store's fields other than [value] and [trace] are those of the
    state the computation starts from. *)

Lemma call_saveFn_eq v σ : call_saveFn v σ = (Normal (), log (save_events σ v) σ).
Proof.
  unfold call_saveFn, save_events. unfold_M.
  destruct (saveFn (opts σ)); [done | by rewrite log_nil].
Qed.

Lemma cSet_eq data σ :
  cSet data σ =
  (Normal (),
   if negb (truthy data) && negb (flag (allowUndefinedData (opts σ)))
   then log [EWarn MSG_UNDEFINED; ETrace MSG_UNDEFINED] σ
   else log (commit_events σ data ++ save_events σ data) (with_value data σ)).
Proof.
  unfold cSet. unfold_M.
  destruct (negb (truthy data) && negb (flag (allowUndefinedData (opts σ)))).
  - unfold_M. by rewrite log_log.
  - unfold mbind, M_bind. rewrite set_eq, call_saveFn_eq. by rewrite log_log.
Qed.

Lemma cUpdate_eq updater σ :
  cUpdate updater σ =
  (Normal (),
   log (save_events σ (updater (value σ)) ++ commit_events σ (updater (value σ)))
       (with_value (updater (value σ)) σ)).
Proof.
  unfold cUpdate, Writable.update. unfold_M.
  unfold mbind, M_bind. rewrite call_saveFn_eq. simpl.
  rewrite set_eq. f_equal. unfold commit_events. simpl.
  by rewrite <- log_log.
Qed.

Lemma is_object_put v k x : is_object (put v k x) = is_object v.
Proof. by destruct v. Qed.

Lemma is_object_set_prototype v x : is_object (set_prototype v x) = is_object v.
Proof. unfold set_prototype. by destruct (is_object x || is_null x), v. Qed.

Lemma find_property_insert_ne cur k x k' :
  k ≠ k' →
  find_property (VObj (<[k := x]> cur)) k' = find_property (VObj cur) k'.
Proof. intros Hne. simpl. by rewrite lookup_insert_ne. Qed.

Lemma unknown_key_events_insert cur k x entries :
  k ∉ entries.*1 →
  unknown_key_events (VObj (<[k := x]> cur)) entries
  = unknown_key_events (VObj cur) entries.
Proof.
  unfold unknown_key_events. induction entries as [|[k' x'] rest IH];
    [done|]. intros [Hne Hk]%not_elem_of_cons.
  cbn [flat_map fst]. by rewrite IH, find_property_insert_ne.
Qed.

(** An inherited [__proto__] is the only property of a plain object that is
    not a data property. *)
Lemma find_property_accessor cur k :
  find_property (VObj cur) k = Some proto_accessor →
  k = "__proto__" ∧ cur !! k = None.
Proof.
  simpl. destruct (cur !! k) eqn:Hk.
  - by rewrite bool_decide_eq_true_2 by eauto.
  - rewrite bool_decide_eq_false_2 by (by intros [? ?]).
    unfold Object_prototype. repeat case_bool_decide; done.
Qed.

(** On a plain object the loop never throws; as long as no entry reaches
    the [__proto__] accessor, the result is a plain object: the entries
    whose key is a property are written as own properties, the others are
    reported, and the rest of the object is as before. *)
Lemma forEach_key_object entries cur σ :
  NoDup entries.*1 →
  (∀ k x, (k, x) ∈ entries →
     find_property (VObj cur) k ≠ Some proto_accessor) →
  ∃ r, forEach_key entries (VObj cur) σ
       = (Normal (VObj r), log (unknown_key_events (VObj cur) entries) σ)
    ∧ (∀ k x, (k, x) ∈ entries → is_Some (find_property (VObj cur) k) →
         r !! k = Some x)
    ∧ (∀ k, k ∉ entries.*1 → r !! k = cur !! k)
    ∧ (∀ k, find_property (VObj cur) k = None → r !! k = None).
Proof.
  revert cur σ. induction entries as [|[k x] rest IH]; intros cur σ Hnd Hacc.
  - exists cur. simpl. rewrite log_nil.
    split_and!; [done | by intros ?? ?%elem_of_nil | done |].
    intros k. simpl. destruct (cur !! k) eqn:Hk; [|done].
    by rewrite bool_decide_eq_true_2 by eauto.
  - apply NoDup_cons in Hnd as [Hk Hnd].
    assert (find_property (VObj cur) k ≠ Some proto_accessor) as Hkacc
      by (apply (Hacc k x); by left).
    cbn [forEach_key is_object].
    destruct (find_property (VObj cur) k) as [[]|] eqn:Hfind; [|done|].
    + (* a property: written *)
      destruct (IH (<[k := x]> cur) σ Hnd)
        as (r & Heq & Hknown & Hother & Hnone).
      { intros k' x' Hin. rewrite find_property_insert_ne.
        - apply (Hacc k' x'). by right.
        - intros ->. apply Hk. apply list_elem_of_fmap. by exists (k', x'). }
      exists r. cbn [put]. rewrite Heq, unknown_key_events_insert by done.
      split; [|split; [|split]].
      * f_equal. unfold unknown_key_events. cbn [flat_map fst].
        by rewrite Hfind, bool_decide_eq_true_2 by eauto.
      * intros k' x' [Hhd|Htl]%elem_of_cons Hk'.
        -- injection Hhd as -> ->. rewrite Hother by done.
           by rewrite lookup_insert_eq.
        -- assert (k ≠ k') as Hne.
           { intros ->. apply Hk. apply list_elem_of_fmap. by exists (k', x'). }
           apply Hknown; [done|]. by rewrite find_property_insert_ne.
      * intros k' Hk'. apply not_elem_of_cons in Hk' as [Hne Hk'].
        rewrite Hother by done. by rewrite lookup_insert_ne.
      * intros k' Hk'. apply Hnone. rewrite find_property_insert_ne; [done|].
        intros ->. by rewrite Hfind in Hk'.
    + (* not a property: reported *)
      unfold_M. unfold mbind, M_bind. simpl. rewrite log_log. simpl.
      destruct (IH cur (log [EWarn (MSG_UNKNOWN_KEY k); ETrace (MSG_UNKNOWN_KEY k)] σ) Hnd)
        as (r & Heq & Hknown & Hother & Hnone).
      { intros k' x' Hin. apply (Hacc k' x'). by right. }
      exists r. rewrite Heq, log_log.
      split; [|split; [|split]].
      * f_equal. unfold unknown_key_events. cbn [flat_map fst].
        cbn [find_property].
        by rewrite Hfind, bool_decide_eq_false_2 by (by intros [? ?]).
      * intros k' x' [Hhd|Htl]%elem_of_cons Hk'.
        -- injection Hhd as -> ->. rewrite Hfind in Hk'. by destruct Hk'.
        -- by apply Hknown.
      * intros k' Hk'. apply not_elem_of_cons in Hk' as [Hne Hk']. by apply Hother.
      * done.
Qed.

Lemma forEach_key_cases entries v σ :
  (forEach_key entries v σ = (Throw TYPE_ERROR_IN, σ)
   ∧ is_object v = false ∧ entries ≠ [])
  ∨ (∃ ws v', forEach_key entries v σ = (Normal v', log ws σ)
       ∧ Forall (λ e, is_console e = true) ws
       ∧ (v' = v ∨ is_object v = true ∧ is_object v' = true)).
Proof.
  revert v σ. induction entries as [|[k x] rest IH]; intros v σ.
  - right. exists [], v. simpl. rewrite log_nil. by split_and!; [|constructor|left].
  - cbn [forEach_key]. destruct (is_object v) eqn:Hobj; [|by left].
    right. destruct (find_property v k) as [[]|].
    + destruct (IH (put v k x) σ) as [(_ & Hno & _)|(ws & v' & Heq & Hws & Hv')];
        [by rewrite is_object_put, Hobj in Hno|].
      exists ws, v'. split_and!; [done | done |].
      right. split; [done|].
      destruct Hv' as [->|[_ ?]]; [by rewrite is_object_put | done].
    + destruct (IH (set_prototype v x) σ)
        as [(_ & Hno & _)|(ws & v' & Heq & Hws & Hv')];
        [by rewrite is_object_set_prototype, Hobj in Hno|].
      exists ws, v'. split_and!; [done | done |].
      right. split; [done|].
      destruct Hv' as [->|[_ ?]]; [by rewrite is_object_set_prototype | done].
    + unfold_M. unfold mbind, M_bind. simpl. rewrite log_log. simpl.
      destruct (IH v (log [EWarn (MSG_UNKNOWN_KEY k); ETrace (MSG_UNKNOWN_KEY k)] σ))
        as [(_ & Hno & _)|(ws & v' & Heq & Hws & Hv')];
        [by rewrite Hobj in Hno|].
      exists ([EWarn (MSG_UNKNOWN_KEY k); ETrace (MSG_UNKNOWN_KEY k)] ++ ws), v'.
      rewrite Heq, log_log. split_and!; [done | | ].
      * by repeat constructor.
      * destruct Hv' as [->|[_ ?]]; [by left | by right].
Qed.

Lemma mutate_custom f mutation σ :
  mutateFn (opts σ) = Some f →
  mutate mutation σ = (Normal (), log [EMutateFn f mutation] σ).
Proof. intros Hf. unfold mutate. unfold_M. by rewrite Hf. Qed.

Lemma mutate_default_cases mutation σ :
  mutateFn (opts σ) = None →
  (∃ e, mutate mutation σ = (Throw e, σ))
  ∨ (∃ ws v', mutate mutation σ
        = (Normal (), log (ws ++ save_events σ v' ++ commit_events σ v')
                          (with_value v' σ))
       ∧ Forall (λ e, is_console e = true) ws
       ∧ (v' = value σ ∨ is_object v' = true)).
Proof.
  intros Hf. unfold mutate, Writable.update. unfold_M. rewrite Hf.
  destruct (own_entries mutation) as [entries|]; [|by left; eexists].
  unfold mbind, M_bind.
  destruct (forEach_key_cases entries (value σ) σ)
    as [(Heq & _)|(ws & v' & Heq & Hws & Hv')]; rewrite Heq.
  - left. by eexists.
  - right. exists ws, v'. rewrite call_saveFn_eq. simpl. rewrite set_eq.
    split_and!; [| done | by destruct Hv' as [->|[_ ?]]; [left|right]].
    f_equal. unfold commit_events, save_events, with_value. simpl.
    unfold log. simpl. by rewrite <- !app_assoc.
Qed.

(** ** The configuration is fixed at construction *)

Lemma opts_resume n σ : opts (resume n σ).2 = opts σ.
Proof.
  unfold resume. unfold_M. destruct (suspended σ !! n) as [ld|]; [|done].
  unfold mbind, M_bind, set_suspended, cLoad_resume. simpl.
  destruct (truthy ld); unfold_M; unfold mbind, M_bind; [rewrite set_eq|];
    simpl; case_bool_decide; try done;
    unfold INITIALIZED_resume; by repeat case_match.
Qed.

Lemma opts_exec c σ : opts (exec c σ) = opts σ.
Proof.
  unfold exec. destruct c as [r|r i|u|m|d| |n]; simpl.
  - done.
  - done.
  - by rewrite cUpdate_eq.
  - destruct (mutateFn (opts σ)) as [f|] eqn:Hf.
    + by rewrite (mutate_custom f).
    + destruct (mutate_default_cases m σ Hf) as [[e ->]|(ws & v' & -> & _)]; done.
  - rewrite cSet_eq. simpl. by case_match.
  - unfold cLoad. unfold_M. by destruct (loadFn (opts σ)).
  - apply opts_resume.
Qed.

Lemma opts_run cs σ : opts (run cs σ) = opts σ.
Proof.
  revert σ. induction cs as [|c cs IH]; intros σ; [done|].
  unfold run in *. simpl. by rewrite IH, opts_exec.
Qed.

Lemma opts_createModel options : opts (createModel options) = merge_opts options.
Proof.
  unfold createModel, INITIALIZED. unfold_M.
  destruct (_ && _); [|done]. unfold cLoad. unfold_M.
  by destruct (loadFn (merge_opts options)).
Qed.

Lemma opts_reachable options cs :
  opts (run cs (createModel options)) = merge_opts options.
Proof. by rewrite opts_run, opts_createModel. Qed.

(** The defaults are spread last: they decide both flags, whatever the
    caller passed; the callbacks are the caller's. *)
Lemma merge_opts_flags options :
  allowUndefinedData (merge_opts options) = Some false
  ∧ loadOnCreate (merge_opts options) = Some true.
Proof. by destruct options. Qed.

Lemma merge_opts_callbacks o :
  saveFn (merge_opts (Some o)) = saveFn o
  ∧ loadFn (merge_opts (Some o)) = loadFn o
  ∧ mutateFn (merge_opts (Some o)) = mutateFn o.
Proof. simpl. unfold spread_prop. simpl. by repeat case_match. Qed.

Lemma allow_reachable options cs :
  flag (allowUndefinedData (opts (run cs (createModel options)))) = false.
Proof. by rewrite opts_reachable, (proj1 (merge_opts_flags options)). Qed.

Lemma cSet_rejects v σ :
  truthy v = false →
  flag (allowUndefinedData (opts σ)) = false →
  cSet v σ = (Normal (), log [EWarn MSG_UNDEFINED; ETrace MSG_UNDEFINED] σ).
Proof. intros Hv Ha. by rewrite cSet_eq, Hv, Ha. Qed.

(** ** [set] *)

(** C5.  On a container constructed without [allowUndefinedData], [set] of
    an empty (falsy) value is a no-op: it returns normally, the current
    value is unchanged, and the only effects are the console warning and
    its trace, so no subscriber is notified and save is not called. *)
Theorem set_empty_is_noop options cs v :
  requests_undefined options = false →
  truthy v = false →
  let σ := run cs (createModel options) in
  cSet v σ = (Normal (), log [EWarn MSG_UNDEFINED; ETrace MSG_UNDEFINED] σ)
  ∧ value (cSet v σ).2 = value σ
  ∧ emitted (cSet v) σ = [EWarn MSG_UNDEFINED; ETrace MSG_UNDEFINED].
Proof.
  intros _ Hv σ.
  pose proof (cSet_rejects v σ Hv (allow_reachable options cs)) as Heq.
  split_and!; [done | by rewrite Heq |].
  apply (emitted_log _ _ σ); [by rewrite Heq | done].
Qed.

Lemma set_empty_is_noop_witness :
  let σ := run [call_set (VObj {[ "a" := VNum 1 ]})] (createModel (Some strict_saving)) in
  value (cSet VNull σ).2 = VObj {[ "a" := VNum 1 ]}
  ∧ emitted (cSet VNull) σ = [EWarn MSG_UNDEFINED; ETrace MSG_UNDEFINED].
Proof.
  pose proof (set_empty_is_noop (Some strict_saving)
                [call_set (VObj {[ "a" := VNum 1 ]})] VNull
                eq_refl eq_refl) as (_ & Hvalue & Hemitted).
  split; [exact Hvalue | exact Hemitted].
Defined.

(** ** [mutate] *)

(** C8.  With a custom merge function configured, [mutate] only calls that
    function: the core leaves the store's value alone, notifies nobody and
    does not call save. *)
Theorem mutate_delegates_to_mutateFn o f cs mutation :
  mutateFn o = Some f →
  let σ := run cs (createModel (Some o)) in
  mutate mutation σ = (Normal (), log [EMutateFn f mutation] σ)
  ∧ value (mutate mutation σ).2 = value σ
  ∧ emitted (mutate mutation) σ = [EMutateFn f mutation]
  ∧ saved (emitted (mutate mutation) σ) = [].
Proof.
  intros Hf σ.
  assert (mutateFn (opts σ) = Some f) as Hσ.
  { unfold σ. rewrite opts_reachable.
    by rewrite (proj2 (proj2 (merge_opts_callbacks o))). }
  assert (emitted (mutate mutation) σ = [EMutateFn f mutation]) as Hem.
  { apply (emitted_log _ _ σ); [|done]. by rewrite (mutate_custom f). }
  rewrite Hem, (mutate_custom f) by done. by split_and!.
Qed.

Lemma mutate_delegates_to_mutateFn_witness :
  let σ := run [call_set (VObj {[ "x" := VNum 1 ]})] (createModel (Some custom_merge)) in
  value (mutate (VObj {[ "x" := VNum 2 ]}) σ).2 = VObj {[ "x" := VNum 1 ]}
  ∧ emitted (mutate (VObj {[ "x" := VNum 2 ]})) σ
    = [EMutateFn "merge" (VObj {[ "x" := VNum 2 ]})].
Proof.
  pose proof (mutate_delegates_to_mutateFn custom_merge "merge"
                [call_set (VObj {[ "x" := VNum 1 ]})] (VObj {[ "x" := VNum 2 ]})
                eq_refl) as (_ & Hvalue & Hemitted & _).
  split; [exact Hvalue | exact Hemitted].
Defined.

(** C10.  With no custom merge function, [mutate] of a descriptor with at
    least one key throws while the store's value is still absent: [k in v]
    is evaluated on [undefined].  Nothing is logged and nothing changes. *)
Theorem default_mutate_on_absent_throws σ (p : gmap string JsVal) :
  mutateFn (opts σ) = None →
  value σ = VUndefined →
  p ≠ ∅ →
  mutate (VObj p) σ = (Throw TYPE_ERROR_IN, σ)
  ∧ emitted (mutate (VObj p)) σ = [].
Proof.
  intros Hf Hv Hp.
  assert (mutate (VObj p) σ = (Throw TYPE_ERROR_IN, σ)) as Heq.
  { unfold mutate, Writable.update. unfold_M. rewrite Hf, Hv.
    unfold mbind, M_bind.
    destruct (map_to_list p) as [|[k x] rest] eqn:Hl; [|done].
    by apply map_to_list_empty_iff in Hl. }
  split; [done|]. apply (emitted_log _ _ σ); [|done]. by rewrite Heq, log_nil.
Qed.

Lemma default_mutate_on_absent_throws_witness :
  mutate (VObj {[ "a" := VNum 1 ]}) (createModel None)
  = (Throw TYPE_ERROR_IN, createModel None).
Proof.
  refine (proj1 (default_mutate_on_absent_throws (createModel None)
                   {[ "a" := VNum 1 ]} eq_refl eq_refl _)).
  intros H. apply (f_equal (λ m : gmap string JsVal, m !! "a")) in H.
  vm_compute in H. discriminate H.
Defined.

Lemma no_accessor_entry (cur p : gmap string JsVal) k x :
  p !! "__proto__" = None ∨ is_Some (cur !! "__proto__") →
  (k, x) ∈ map_to_list p →
  find_property (VObj cur) k ≠ Some proto_accessor.
Proof.
  intros Hp Hin%elem_of_map_to_list [-> Hk]%find_property_accessor.
  destruct Hp as [Hp|[? Hp]]; congruence.
Qed.

Lemma mutate_default_object σ (cur p : gmap string JsVal) :
  mutateFn (opts σ) = None →
  value σ = VObj cur →
  p !! "__proto__" = None ∨ is_Some (cur !! "__proto__") →
  ∃ r : gmap string JsVal,
    mutate (VObj p) σ
    = (Normal (),
       log (unknown_key_events (VObj cur) (map_to_list p)
            ++ save_events σ (VObj r)
            ++ EStore (VObj r)
               :: map (λ run, ENotify run (VObj r)) (subscribers σ))
           (with_value (VObj r) σ))
    ∧ (∀ k, r !! k = match p !! k with
                     | Some x =>
                         if has_property (VObj cur) k then Some x else None
                     | None => cur !! k
                     end).
Proof.
  intros Hf Hv Hp.
  destruct (forEach_key_object (map_to_list p) cur σ (NoDup_fst_map_to_list p))
    as (r & Heq & Hknown & Hother & Hnone).
  { intros k x. by apply no_accessor_entry. }
  exists r. split.
  - unfold mutate, Writable.update. unfold_M. rewrite Hf, Hv.
    unfold mbind, M_bind. rewrite Heq, call_saveFn_eq. simpl. rewrite set_eq.
    f_equal. unfold commit_events, save_events, with_value, log. simpl.
    rewrite Hv. simpl. by rewrite <- !app_assoc.
  - intros k. destruct (p !! k) as [x|] eqn:Hpk.
    + unfold has_property. case_bool_decide as Hfind.
      * apply Hknown; [by apply elem_of_map_to_list | done].
      * apply Hnone. destruct (find_property (VObj cur) k) eqn:E; [|done].
        exfalso. apply Hfind. eauto.
    + apply Hother. intros [[k' x] [-> Hin]]%list_elem_of_fmap.
      apply elem_of_map_to_list in Hin. simpl in Hpk. congruence.
Qed.

(** The key test is [k in v]: a key the object only inherits passes it.
    [mutate({ toString: 7 })] on [{ x: 1 }] writes an own [toString] and
    logs nothing. *)
Example default_mutate_writes_inherited_key :
  let σ := run [call_set (VObj {[ "x" := VNum 1 ]})] (createModel None) in
  value (exec (call_mutate (VObj {[ "toString" := VNum 7 ]})) σ)
  = VObj (<[ "toString" := VNum 7 ]> {[ "x" := VNum 1 ]})
  ∧ emitted (mutate (VObj {[ "toString" := VNum 7 ]})) σ
    = [EStore (VObj (<[ "toString" := VNum 7 ]> {[ "x" := VNum 1 ]}))].
Proof. by vm_compute. Qed.

(** An own [__proto__] key of the descriptor (as [JSON.parse] gives)
    reaches the inherited setter: the object gets a new prototype and no
    new key, and the keys of that prototype then pass the key test. *)
Example default_mutate_reparents :
  let σ := run [call_set (VObj {[ "x" := VNum 1 ]})] (createModel None) in
  let σ1 := exec (call_mutate (VObj {[ "__proto__" := VObj {[ "z" := VNum 0 ]} ]})) σ in
  value σ1 = VObjP (VObj {[ "z" := VNum 0 ]}) {[ "x" := VNum 1 ]}
  ∧ value (exec (call_mutate (VObj {[ "z" := VNum 5 ]})) σ1)
    = VObjP (VObj {[ "z" := VNum 0 ]}) (<[ "z" := VNum 5 ]> {[ "x" := VNum 1 ]}).
Proof. by vm_compute. Qed.




(** ** Saving *)

Lemma saved_app es es' : saved (es ++ es') = saved es ++ saved es'.
Proof. apply omap_app. Qed.

Lemma saved_console ws :
  Forall (λ e, is_console e = true) ws → saved ws = [].
Proof.
  induction 1 as [|e ws He _ IH]; [done|].
  destruct e; try discriminate He; exact IH.
Qed.

Lemma saved_commit_events σ v : saved (commit_events σ v) = [].
Proof.
  unfold commit_events. case_match; [|done]. unfold saved. simpl.
  by induction (subscribers σ).
Qed.

Lemma saved_save_events σ f v :
  saveFn (opts σ) = Some f → saved (save_events σ v) = [v].
Proof. intros Hf. unfold save_events. by rewrite Hf. Qed.

Lemma store_in_commit_events σ v v' : EStore v ∈ commit_events σ v' → v = v'.
Proof.
  unfold commit_events. case_match; [|by intros ?%elem_of_nil].
  intros [Hhd|Htl]%elem_of_cons; [congruence|].
  apply list_elem_of_fmap in Htl as (? & ? & _). discriminate.
Qed.

Lemma store_not_console ws v :
  Forall (λ e, is_console e = true) ws → EStore v ∉ ws.
Proof.
  intros Hws Hin. rewrite Forall_forall in Hws. by apply Hws in Hin.
Qed.

Lemma store_not_save_events σ v v' : EStore v ∉ save_events σ v'.
Proof.
  unfold save_events. case_match; [|by intros ?%elem_of_nil].
  by intros [?|?%elem_of_nil]%elem_of_cons.
Qed.

(** C4.  With a save function configured, a call of one of the three
    write paths ([set], [update], [mutate]) invokes save at most once, and
    then with the value the store holds when the call returns; and whenever
    the call assigns a value [v] to the store, it invokes save exactly once,
    with that same [v]. *)
Theorem commit_saves_once_with_new_value o f cs c :
  saveFn o = Some f →
  write_path c →
  let σ := run cs (createModel (Some o)) in
  let es := emitted (step c) σ in
  (saved es = [] ∨ saved es = [value (exec c σ)])
  ∧ (∀ v, EStore v ∈ es → saved es = [v] ∧ value (exec c σ) = v).
Proof.
  intros Hf Hc σ.
  assert (saveFn (opts σ) = Some f) as Hσ.
  { unfold σ. rewrite opts_reachable.
    by rewrite (proj1 (merge_opts_callbacks o)). }
  clearbody σ. unfold exec.
  destruct c as [r|r i|u|m|d| |n]; try (by destruct Hc); simpl.
  - (* update *)
    rewrite (emitted_log _ σ (with_value (u (value σ)) σ)
               (save_events σ (u (value σ)) ++ commit_events σ (u (value σ))))
      by (by rewrite ?cUpdate_eq).
    rewrite cUpdate_eq. simpl.
    rewrite saved_app, (saved_save_events _ f), saved_commit_events by done.
    split; [by right|].
    intros v [Hin|Hin]%elem_of_app; [by apply store_not_save_events in Hin|].
    by apply store_in_commit_events in Hin as ->.
  - (* mutate *)
    destruct (mutateFn (opts σ)) as [g|] eqn:Hg.
    + rewrite (emitted_log _ σ σ [EMutateFn g m])
        by (by rewrite ?(mutate_custom g)).
      split; [by left|]. by intros v [?|?%elem_of_nil]%elem_of_cons.
    + destruct (mutate_default_cases m σ Hg)
        as [[e Heq]|(ws & v' & Heq & Hws & _)].
      * rewrite (emitted_log _ σ σ []) by (by rewrite ?Heq, ?log_nil).
        split; [by left|]. by intros v ?%elem_of_nil.
      * rewrite (emitted_log _ σ (with_value v' σ)
                   (ws ++ save_events σ v' ++ commit_events σ v'))
          by (by rewrite ?Heq).
        rewrite Heq. simpl.
        rewrite !saved_app, saved_console, (saved_save_events _ f),
          saved_commit_events by done.
        split; [by right|].
        intros v [Hin|[Hin|Hin]%elem_of_app]%elem_of_app;
          [by apply store_not_console in Hin
          |by apply store_not_save_events in Hin|].
        by apply store_in_commit_events in Hin as ->.
  - (* set *)
    rewrite cSet_eq. simpl.
    destruct (negb (truthy d) && negb (flag (allowUndefinedData (opts σ)))) eqn:Hguard.
    + rewrite (emitted_log _ σ σ [EWarn MSG_UNDEFINED; ETrace MSG_UNDEFINED])
        by (by rewrite ?cSet_eq, ?Hguard).
      split; [by left|].
      intros v Hin. by repeat (apply elem_of_cons in Hin as [?|Hin]; [done|]);
        apply elem_of_nil in Hin.
    + rewrite (emitted_log _ σ (with_value d σ)
                 (commit_events σ d ++ save_events σ d))
        by (by rewrite ?cSet_eq, ?Hguard).
      rewrite saved_app, (saved_save_events _ f), saved_commit_events by done.
      split; [by right|].
      intros v [Hin|Hin]%elem_of_app; [|by apply store_not_save_events in Hin].
      by apply store_in_commit_events in Hin as ->.
Qed.

Lemma commit_saves_once_with_new_value_witness :
  let σ := run [call_set (VObj {[ "x" := VNum 1 ]})] (createModel (Some saving)) in
  let c := call_mutate (VObj (<[ "y" := VNum 9 ]> {[ "x" := VNum 2 ]})) in
  saved (emitted (step c) σ) = [VObj {[ "x" := VNum 2 ]}]
  ∧ value (exec c σ) = VObj {[ "x" := VNum 2 ]}.
Proof.
  destruct (commit_saves_once_with_new_value saving "save"
              [call_set (VObj {[ "x" := VNum 1 ]})]
              (call_mutate (VObj (<[ "y" := VNum 9 ]> {[ "x" := VNum 2 ]})))
              eq_refl I) as [_ Hcommit].
  apply (Hcommit (VObj {[ "x" := VNum 2 ]})).
  vm_compute. do 3 apply list_elem_of_further. apply list_elem_of_here.
Defined.

(** ** [update] *)

(** C6, on the code: [cUpdate] calls save inside the function it hands to
    the store's [update], that is before the store assigns the new value
    and runs the subscribers.  With one subscriber and a save function, the
    subscriber is notified after save was called. *)
Lemma update_saves_before_notifying :
  let σ := run [call_subscribe 0%nat] (createModel (Some saving)) in
  emitted (cUpdate (λ _, VNum 1)) σ
  = [ESave "save" (VNum 1); EStore (VNum 1); ENotify 0 (VNum 1)]
  ∧ ¬ notified_before_saved (emitted (cUpdate (λ _, VNum 1)) σ).
Proof.
  assert (emitted (cUpdate (λ _, VNum 1))
            (run [call_subscribe 0%nat] (createModel (Some saving)))
          = [ESave "save" (VNum 1); EStore (VNum 1); ENotify 0 (VNum 1)]) as Hem
    by (by vm_compute).
  intros σ. subst σ. rewrite Hem. split; [done|]. intros H.
  specialize (H 2%nat 0%nat (ENotify 0 (VNum 1)) (ESave "save" (VNum 1))
                eq_refl eq_refl eq_refl eq_refl).
  lia.
Qed.

(** C6, amended.  For every transform, [update] returns normally with the
    transform's result [v'] as the store's value.  Save (if configured) is
    called with [v'] first; then, unless the store finds [v'] unchanged, it
    assigns [v'] and notifies every subscriber with it.  So every call of
    save precedes every notification. *)
Theorem update_commits_after_saving σ updater :
  let v' := updater (value σ) in
  (cUpdate updater σ).1 = Normal ()
  ∧ value (cUpdate updater σ).2 = v'
  ∧ emitted (cUpdate updater) σ = save_events σ v' ++ commit_events σ v'
  ∧ saved_before_notified (emitted (cUpdate updater) σ).
Proof.
  intros v'.
  assert (emitted (cUpdate updater) σ = save_events σ v' ++ commit_events σ v')
    as Hem.
  { apply (emitted_log _ _ (with_value v' σ)); [by rewrite cUpdate_eq | done]. }
  rewrite Hem, cUpdate_eq. split_and!; [done | done | done |].
  intros i j e e' Hi Hj He He'.
  assert (i < length (save_events σ v'))%nat as Hlt.
  { apply lookup_app_Some in Hi as [Hi|[_ Hi]]; [by eapply lookup_lt_Some|].
    apply list_elem_of_lookup_2 in Hi. unfold commit_events in Hi.
    case_match; [|by apply elem_of_nil in Hi].
    apply elem_of_cons in Hi as [->|Hi]; [done|].
    apply list_elem_of_fmap in Hi as (? & -> & _). done. }
  apply lookup_app_Some in Hj as [Hj|[Hge _]]; [|lia].
  apply list_elem_of_lookup_2 in Hj. unfold save_events in Hj.
  case_match; [|by apply elem_of_nil in Hj].
  apply elem_of_cons in Hj as [->|Hj]; [done | by apply elem_of_nil in Hj].
Qed.

(** ** The value is not replaced by an empty one *)

Lemma truthy_object v : is_object v = true → truthy v = true.
Proof. by destruct v. Qed.

Lemma value_resume n σ :
  value (resume n σ).2 = value σ ∨ truthy (value (resume n σ).2) = true.
Proof.
  unfold resume. unfold_M. destruct (suspended σ !! n) as [ld|]; [|by left].
  unfold mbind, M_bind, set_suspended, cLoad_resume. simpl.
  destruct (truthy ld) eqn:Hld; unfold_M; unfold mbind, M_bind;
    [rewrite set_eq|]; simpl; case_bool_decide;
    unfold INITIALIZED_resume; rewrite ?Hld; simpl; auto.
Qed.

Lemma value_exec c σ :
  flag (allowUndefinedData (opts σ)) = false →
  populating c σ →
  value (exec c σ) = value σ ∨ truthy (value (exec c σ)) = true.
Proof.
  intros Ha Hc. unfold exec. destruct c as [r|r i|u|m|d| |n]; simpl.
  - by left.
  - by left.
  - rewrite cUpdate_eq. right. exact Hc.
  - destruct (mutateFn (opts σ)) as [f|] eqn:Hf.
    + left. by rewrite (mutate_custom f).
    + destruct (mutate_default_cases m σ Hf)
        as [[e ->]|(ws & v' & -> & _ & [->|Hobj])]; simpl;
        [by left | by left | right; by apply truthy_object].
  - rewrite cSet_eq, Ha. simpl. destruct (truthy d) eqn:Hd; simpl; auto.
  - left. unfold cLoad. unfold_M. by destruct (loadFn (opts σ)).
  - apply value_resume.
Qed.

Lemma value_run cs σ :
  flag (allowUndefinedData (opts σ)) = false →
  populating_run cs σ →
  value σ = VUndefined ∨ truthy (value σ) = true →
  value (run cs σ) = VUndefined ∨ truthy (value (run cs σ)) = true.
Proof.
  revert σ. unfold run.
  induction cs as [|c cs IH]; intros σ Ha Hcs Hσ; [done|].
  destruct Hcs as [Hc Hcs]. simpl. apply IH; [by rewrite opts_exec | done |].
  destruct (value_exec c σ Ha Hc) as [->|?]; [done | by right].
Qed.

(** C3, on the code: [update] has no guard.  On a container constructed
    with [allowUndefinedData: false] and holding [{ a: 1 }], an [update]
    whose transform returns [undefined] empties the store. *)
Lemma update_can_empty_the_store :
  let σ := run [call_set (VObj {[ "a" := VNum 1 ]})]
               (createModel (Some strict_saving)) in
  requests_undefined (Some strict_saving) = false
  ∧ value σ = VObj {[ "a" := VNum 1 ]}
  ∧ value (exec (call_update (λ _, VUndefined)) σ) = VUndefined
  ∧ truthy (value (exec (call_update (λ _, VUndefined)) σ)) = false.
Proof. vm_compute. by split_and!. Qed.

(** C3, amended.  On a container constructed without [allowUndefinedData],
    after any sequence of calls in which no [update] transform returns an
    empty value on the value it is applied to, the current value is
    populated or is still the [undefined] the store started with; and each
    further such call leaves the current value as it is or replaces it with
    a populated one. *)
Theorem value_never_emptied options cs :
  requests_undefined options = false →
  populating_run cs (createModel options) →
  let σ := run cs (createModel options) in
  (value σ = VUndefined ∨ truthy (value σ) = true)
  ∧ (∀ c, populating c σ →
       value (exec c σ) = value σ ∨ truthy (value (exec c σ)) = true).
Proof.
  intros _ Hcs σ. split.
  - subst σ. apply value_run; [apply (allow_reachable options []) | done |].
    left. unfold createModel, INITIALIZED. unfold_M.
    destruct (_ && _); [|done]. unfold cLoad. unfold_M.
    by destruct (loadFn (merge_opts options)).
  - intros c Hc. apply value_exec; [apply allow_reachable | done].
Qed.

Lemma value_never_emptied_witness :
  let σ := run [call_set (VObj {[ "a" := VNum 1 ]}); call_set VUndefined;
                call_update (λ v, v)]
               (createModel (Some strict_saving)) in
  (value σ = VUndefined ∨ truthy (value σ) = true)
  ∧ (value (exec (call_mutate (VObj {[ "a" := VNum 2 ]})) σ) = value σ
     ∨ truthy (value (exec (call_mutate (VObj {[ "a" := VNum 2 ]})) σ)) = true).
Proof.
  destruct (value_never_emptied (Some strict_saving)
              [call_set (VObj {[ "a" := VNum 1 ]}); call_set VUndefined;
               call_update (λ v, v)]) as [Hinv Hstep].
  - reflexivity.
  - vm_compute. by split_and!.
  - split; [exact Hinv|]. apply Hstep. exact I.
Defined.

(** ** Initialization *)

Lemma createModel_loading o lf :
  loadFn o = Some lf →
  createModel (Some o)
  = {| opts := merge_opts (Some o); value := VUndefined; subscribers := [];
       loads := 1; suspended := {[ 0%nat := lf 0%nat ]}; awaited := Some 0%nat;
       initialized := Pending; trace := [ELoad] |}.
Proof.
  intros Hlf. unfold createModel, INITIALIZED, cLoad. unfold_M.
  unfold spread_prop. simpl. rewrite Hlf.
  rewrite bool_decide_eq_true_2 by eauto. simpl. by rewrite Hlf.
Qed.

Lemma awaiting_first_load_exec v c σ :
  c ≠ load_resolves 0 →
  awaiting_first_load v σ → awaiting_first_load v (exec c σ).
Proof.
  intros Hc (Ha & Hs & Hi & Hl). unfold exec, awaiting_first_load.
  destruct c as [r|r i|u|m|d| |n]; simpl.
  - done.
  - done.
  - by rewrite cUpdate_eq.
  - destruct (mutateFn (opts σ)) as [f|] eqn:Hf.
    + by rewrite (mutate_custom f).
    + by destruct (mutate_default_cases m σ Hf) as [[e ->]|(ws & v' & -> & _)].
  - rewrite cSet_eq. simpl. by case_match.
  - unfold cLoad. unfold_M. destruct (loadFn (opts σ)); simpl; [|done].
    split_and!; [done | | done | lia]. rewrite lookup_insert_ne; [done | lia].
  - assert (n ≠ 0%nat) as Hn by congruence.
    unfold resume. unfold_M. destruct (suspended σ !! n) as [ld|]; [|done].
    unfold mbind, M_bind, set_suspended, cLoad_resume. simpl.
    destruct (truthy ld); unfold_M; unfold mbind, M_bind;
      [rewrite set_eq|]; simpl; rewrite Ha;
      (rewrite bool_decide_eq_false_2 by congruence); simpl;
      by rewrite lookup_delete_ne.
Qed.

Lemma awaiting_first_load_run v cs σ :
  Forall (λ c, c ≠ load_resolves 0) cs →
  awaiting_first_load v σ → awaiting_first_load v (run cs σ).
Proof.
  intros Hcs. revert σ. unfold run.
  induction Hcs as [|c cs Hc _ IH]; intros σ Hσ; [done|].
  simpl. by apply IH, awaiting_first_load_exec.
Qed.

Lemma resume_first_load v σ :
  awaiting_first_load v σ →
  resume 0 σ
  = (Normal (),
     (settle (if truthy v then Resolved v else Rejected VUndefined)
        (if truthy v
         then log (commit_events σ v)
                (with_value v (set_suspended (loads σ) (delete 0%nat (suspended σ)) σ).2)
         else (set_suspended (loads σ) (delete 0%nat (suspended σ)) σ).2)).2).
Proof.
  intros (Ha & Hs & Hi & Hl). unfold resume. unfold_M. rewrite Hs.
  unfold mbind, M_bind, set_suspended, cLoad_resume. simpl.
  destruct (truthy v) eqn:Hv; unfold_M; unfold mbind, M_bind;
    [rewrite set_eq|]; simpl; rewrite Ha, bool_decide_eq_true_2 by done;
    unfold INITIALIZED_resume; simpl; by rewrite ?Hv.
Qed.

(** C9.  With auto-load enabled (asked for, or left at its default) and a
    load function supplied, construction calls load once and leaves
    readiness pending until that load resolves, whatever the client does
    meanwhile.  When it resolves to a populated value, readiness resolves
    to that value, the store is assigned it and the subscribers are
    notified with it (unless the store finds it unchanged), so that it is
    the current value; when it resolves to an empty value, readiness
    rejects and the store is left as it was, with no assignment and no
    notification. *)
Theorem initialization_follows_first_load o lf cs :
  requests_autoload o = true →
  loadFn o = Some lf →
  Forall (λ c, c ≠ load_resolves 0) cs →
  let σ := run cs (createModel (Some o)) in
  let σ' := exec (load_resolves 0) σ in
  trace (createModel (Some o)) = [ELoad]
  ∧ initialized σ = Pending
  ∧ (truthy (lf 0%nat) = true →
       initialized σ' = Resolved (lf 0%nat)
       ∧ value σ' = lf 0%nat
       ∧ emitted (step (load_resolves 0)) σ = commit_events σ (lf 0%nat))
  ∧ (truthy (lf 0%nat) = false →
       initialized σ' = Rejected VUndefined
       ∧ value σ' = value σ
       ∧ emitted (step (load_resolves 0)) σ = []).
Proof.
  intros _ Hlf Hcs σ σ'.
  assert (awaiting_first_load (lf 0%nat) σ) as Hσ.
  { apply awaiting_first_load_run; [done|].
    rewrite (createModel_loading o lf Hlf). unfold awaiting_first_load. simpl.
    split_and!; [done | by rewrite lookup_singleton_eq | done | lia]. }
  pose proof (resume_first_load _ _ Hσ) as Heq.
  destruct Hσ as (Ha & Hs & Hi & Hl).
  split_and!.
  - by rewrite (createModel_loading o lf Hlf).
  - done.
  - intros Hv. subst σ'. unfold exec. simpl.
    rewrite (emitted_log (resume 0) σ
               (settle (Resolved (lf 0%nat))
                  (with_value (lf 0%nat)
                     (set_suspended (loads σ) (delete 0%nat (suspended σ)) σ).2)).2
               (commit_events σ (lf 0%nat)))
      by (by rewrite ?Heq, ?Hv).
    rewrite Heq, Hv. simpl. by rewrite Hi.
  - intros Hv. subst σ'. unfold exec. simpl.
    rewrite (emitted_log (resume 0) σ
               (settle (Rejected VUndefined)
                  (set_suspended (loads σ) (delete 0%nat (suspended σ)) σ).2).2 [])
      by (by rewrite ?Heq, ?Hv, ?log_nil).
    rewrite Heq, Hv. simpl. by rewrite Hi.
Qed.

Lemma initialization_follows_first_load_witness :
  let σ := run [call_subscribe 0%nat; call_set (VObj {[ "b" := VNum 2 ]})]
               (createModel (Some (persistent (VObj {[ "a" := VNum 1 ]})))) in
  let σ' := exec (load_resolves 0) σ in
  initialized σ = Pending
  ∧ initialized σ' = Resolved (VObj {[ "a" := VNum 1 ]})
  ∧ value σ' = VObj {[ "a" := VNum 1 ]}
  ∧ emitted (step (load_resolves 0)) σ
    = [EStore (VObj {[ "a" := VNum 1 ]});
       ENotify 0 (VObj {[ "a" := VNum 1 ]})].
Proof.
  destruct (initialization_follows_first_load
              (persistent (VObj {[ "a" := VNum 1 ]}))
              (λ _, VObj {[ "a" := VNum 1 ]})
              [call_subscribe 0%nat; call_set (VObj {[ "b" := VNum 2 ]})])
    as (_ & Hpending & Hresolved & _).
  - reflexivity.
  - reflexivity.
  - repeat constructor; discriminate.
  - destruct (Hresolved eq_refl) as (Hi & Hv & Hem).
    split; [exact Hpending|]. split; [exact Hi|]. split; [exact Hv | exact Hem].
Defined.

(** ** The caller's flags against the defaults *)

(** C1, on the code.  The defaults are spread after the caller's options,
    so [loadOnCreate: false] is overwritten by [true]: with a load function
    supplied, construction calls load and readiness stays pending instead
    of resolving at once. *)
Theorem loadOnCreate_false_still_loads o lf :
  loadOnCreate o = Some false →
  loadFn o = Some lf →
  let σ := createModel (Some o) in
  loadOnCreate (opts σ) = Some true
  ∧ trace σ = [ELoad]
  ∧ initialized σ = Pending.
Proof. intros _ Hlf σ. subst σ. by rewrite (createModel_loading o lf Hlf). Qed.

Lemma loadOnCreate_false_still_loads_witness :
  let σ := createModel (Some (loading false (VObj {[ "a" := VNum 1 ]}))) in
  loadOnCreate (opts σ) = Some true
  ∧ trace σ = [ELoad]
  ∧ initialized σ = Pending.
Proof.
  apply (loadOnCreate_false_still_loads
           (loading false (VObj {[ "a" := VNum 1 ]}))
           (λ _, VObj {[ "a" := VNum 1 ]})); reflexivity.
Defined.

(** C2, on the code.  For the same reason [allowUndefinedData: true] is
    overwritten by [false]: [set] of an empty value is still refused with a
    warning; the store keeps its value and save is not called. *)
Theorem allowUndefinedData_true_still_refuses o cs v :
  allowUndefinedData o = Some true →
  truthy v = false →
  let σ := run cs (createModel (Some o)) in
  allowUndefinedData (opts σ) = Some false
  ∧ cSet v σ = (Normal (), log [EWarn MSG_UNDEFINED; ETrace MSG_UNDEFINED] σ)
  ∧ value (cSet v σ).2 = value σ
  ∧ emitted (cSet v) σ = [EWarn MSG_UNDEFINED; ETrace MSG_UNDEFINED].
Proof.
  intros _ Hv σ.
  pose proof (cSet_rejects v σ Hv (allow_reachable (Some o) cs)) as Heq.
  split_and!; [by unfold σ; rewrite opts_reachable | done | by rewrite Heq |].
  apply (emitted_log _ _ σ); [by rewrite Heq | done].
Qed.

Lemma allowUndefinedData_true_still_refuses_witness :
  let σ := run [call_set (VObj {[ "a" := VNum 1 ]})]
               (createModel (Some allowing_undefined)) in
  allowUndefinedData (opts σ) = Some false
  ∧ value (cSet VUndefined σ).2 = VObj {[ "a" := VNum 1 ]}
  ∧ emitted (cSet VUndefined) σ = [EWarn MSG_UNDEFINED; ETrace MSG_UNDEFINED].
Proof.
  pose proof (allowUndefinedData_true_still_refuses allowing_undefined
                [call_set (VObj {[ "a" := VNum 1 ]})] VUndefined
                eq_refl eq_refl) as (Hflag & _ & Hvalue & Hemitted).
  split; [exact Hflag|]. split; [exact Hvalue | exact Hemitted].
Defined.

(** ** The remaining calls, as equations *)

Lemma subscribe_eq r σ :
  Writable.subscribe r σ
  = (Normal (),
     log [ENotify r (value σ)] (set_subscribers (subscribers σ ++ [r]) σ).2).
Proof. done. Qed.

Lemma cLoad_eq σ :
  cLoad σ
  = match loadFn (opts σ) with
    | None => (Normal None, log [EWarn MSG_NO_LOADFN] σ)
    | Some f =>
        (Normal (Some (loads σ)),
         log [ELoad]
           (set_suspended (S (loads σ))
              (<[loads σ := f (loads σ)]> (suspended σ)) σ).2)
    end.
Proof. unfold cLoad. unfold_M. by destruct (loadFn (opts σ)). Qed.

Lemma resume_eq n σ :
  resume n σ
  = (Normal (),
     match suspended σ !! n with
     | None => σ
     | Some ld =>
         log (if truthy ld then commit_events σ ld else []) (resumed n ld σ)
     end).
Proof.
  unfold resume. unfold_M. destruct (suspended σ !! n) as [ld|]; [|done].
  unfold mbind, M_bind, set_suspended, cLoad_resume, resumed. simpl.
  destruct (truthy ld) eqn:Hld; unfold_M; unfold mbind, M_bind;
    [rewrite set_eq|]; simpl; case_bool_decide;
    unfold INITIALIZED_resume, settle, log; simpl; rewrite ?Hld; simpl;
    by rewrite ?app_nil_r.
Qed.

(** ** What a call can emit *)

Lemma may_emit_console c σ ws :
  Forall (λ e, is_console e = true) ws → Forall (may_emit c σ) ws.
Proof. intros Hws. eapply Forall_impl; [done|]. by intros []. Qed.

Lemma may_emit_save c σ v :
  write_path c → value (exec c σ) = v → Forall (may_emit c σ) (save_events σ v).
Proof.
  intros Hc Hv. unfold save_events.
  destruct (saveFn (opts σ)) eqn:Hf; repeat constructor; done.
Qed.

Lemma may_emit_commit c σ v :
  value (exec c σ) = v → Forall (may_emit c σ) (commit_events σ v).
Proof.
  intros Hv. unfold commit_events. case_match; [|constructor].
  constructor; [done|]. apply Forall_fmap, Forall_forall.
  intros r Hr. simpl. auto.
Qed.

Lemma exec_trace_intro c σ σ' es :
  (step c σ).2 = log es σ' → trace σ' = trace σ →
  Forall (may_emit c σ) es →
  trace (exec c σ) = trace σ ++ emitted (step c) σ
  ∧ Forall (may_emit c σ) (emitted (step c) σ).
Proof.
  intros Hc Ht Hes. rewrite (emitted_log _ _ _ _ Hc Ht). split; [|done].
  unfold exec. rewrite Hc. simpl. by rewrite Ht.
Qed.

Lemma exec_trace c σ :
  trace (exec c σ) = trace σ ++ emitted (step c) σ
  ∧ Forall (may_emit c σ) (emitted (step c) σ).
Proof.
  destruct c as [r|r i|u|m|d| |n].
  - (* subscribe *)
    eapply exec_trace_intro; [apply (f_equal snd (subscribe_eq r σ)) | done |].
    repeat constructor; by auto.
  - (* unsubscribe *)
    apply (exec_trace_intro _ σ (Writable.unsubscribe r i σ).2 []);
      [by rewrite log_nil | done | constructor].
  - (* update *)
    pose proof (f_equal snd (cUpdate_eq u σ)) as Heq.
    eapply exec_trace_intro; [exact Heq | done |].
    apply Forall_app. split;
      [apply may_emit_save; [done|] | apply may_emit_commit];
      unfold exec; simpl in *; by rewrite Heq.
  - (* mutate *)
    destruct (mutateFn (opts σ)) as [g|] eqn:Hg.
    + eapply exec_trace_intro;
        [apply (f_equal snd (mutate_custom g m σ Hg)) | done |].
      by repeat constructor.
    + destruct (mutate_default_cases m σ Hg)
        as [[e Heq]|(ws & v' & Heq & Hws & _)].
      * apply (exec_trace_intro _ σ σ []);
          [simpl; by rewrite Heq, log_nil | done | constructor].
      * eapply exec_trace_intro; [apply (f_equal snd Heq) | done |].
        assert (value (exec (call_mutate m) σ) = v') as Hv
          by (unfold exec; simpl; by rewrite Heq).
        repeat (apply Forall_app; split);
          [by apply may_emit_console | by apply may_emit_save
          | by apply may_emit_commit].
  - (* set *)
    pose proof (f_equal snd (cSet_eq d σ)) as Heq.
    destruct (negb (truthy d) && negb (flag (allowUndefinedData (opts σ)))).
    + eapply exec_trace_intro; [exact Heq | done |]. by repeat constructor.
    + eapply exec_trace_intro; [exact Heq | done |].
      assert (value (exec (call_set d) σ) = d) as Hv
        by (unfold exec; simpl in *; by rewrite Heq).
      apply Forall_app. split;
        [by apply may_emit_commit | by apply may_emit_save].
  - (* load *)
    assert ((step call_load σ).2 = (cLoad σ).2) as Hstep.
    { simpl. unfold mbind, M_bind. by destruct (cLoad σ) as [[?|?] ?]. }
    pose proof (cLoad_eq σ) as Heq.
    destruct (loadFn (opts σ)) as [f|] eqn:Hf.
    + eapply exec_trace_intro; [by rewrite Hstep, Heq | done |].
      repeat constructor. by rewrite Hf.
    + eapply exec_trace_intro; [by rewrite Hstep, Heq | done |].
      by repeat constructor.
  - (* a load resolves *)
    pose proof (f_equal snd (resume_eq n σ)) as Heq. simpl in Heq.
    destruct (suspended σ !! n) as [ld|] eqn:Hn.
    + eapply exec_trace_intro; [exact Heq | done |].
      destruct (truthy ld) eqn:Hld; [|constructor].
      apply may_emit_commit. unfold exec. simpl. rewrite Heq. simpl.
      by rewrite Hld.
    + apply (exec_trace_intro _ σ σ []);
        [simpl; by rewrite Heq, log_nil | done | constructor].
Qed.

(** Apart from value, subscribers and trace, the state changes only when a
    load is started or a load in flight resolves. *)
Lemma exec_frame c σ :
  (suspended (exec c σ) = suspended σ
   ∧ initialized (exec c σ) = initialized σ
   ∧ awaited (exec c σ) = awaited σ)
  ∨ (c = call_load
     ∧ ∃ f, loadFn (opts σ) = Some f
       ∧ exec c σ
         = log [ELoad]
             (set_suspended (S (loads σ))
                (<[loads σ := f (loads σ)]> (suspended σ)) σ).2)
  ∨ (∃ n ld, c = load_resolves n
       ∧ suspended σ !! n = Some ld
       ∧ exec c σ
         = log (if truthy ld then commit_events σ ld else []) (resumed n ld σ)).
Proof.
  unfold exec. destruct c as [r|r i|u|m|d| |n]; simpl.
  - by left.
  - by left.
  - left. by rewrite cUpdate_eq.
  - left. destruct (mutateFn (opts σ)) as [g|] eqn:Hg.
    + by rewrite (mutate_custom g).
    + by destruct (mutate_default_cases m σ Hg) as [[e ->]|(ws & v' & -> & _)].
  - left. rewrite cSet_eq. simpl. by case_match.
  - unfold mbind, M_bind. pose proof (cLoad_eq σ) as Heq.
    destruct (loadFn (opts σ)) as [f|] eqn:Hf; rewrite Heq.
    + right. left. split; [done|]. by exists f.
    + by left.
  - rewrite resume_eq. destruct (suspended σ !! n) as [ld|] eqn:Hn; simpl.
    + right. right. by exists n, ld.
    + by left.
Qed.

Lemma saved_without_saves es :
  Forall (λ e, is_save e = false) es → saved es = [].
Proof.
  induction 1 as [|e es He _ IH]; [done|].
  destruct e; try discriminate He; exact IH.
Qed.

Lemma createModel_idle options :
  (options ≫= loadFn) = None →
  createModel options
  = {| opts := merge_opts options; value := VUndefined; subscribers := [];
       loads := 0; suspended := ∅; awaited := None;
       initialized := Resolved (VObj ∅); trace := [] |}.
Proof.
  intros Hlf. unfold createModel, INITIALIZED. unfold_M.
  destruct options as [o|]; simpl in *; [|done].
  unfold spread_prop. simpl. rewrite Hlf.
  by rewrite bool_decide_eq_false_2 by (by intros [? ?]).
Qed.

(** ** Effects of the calls *)

(** X1.  A container constructed without a load function calls no load,
    ever: construction leaves the store [undefined], readiness is resolved
    to the empty object from the start and stays so, and [load()] only logs
    a warning and leaves the value alone. *)
Theorem without_loadFn_ready_and_never_loads options cs :
  (options ≫= loadFn) = None →
  let σ := run cs (createModel options) in
  value (createModel options) = VUndefined
  ∧ initialized σ = Resolved (VObj ∅)
  ∧ (ELoad ∉ trace σ)
  ∧ emitted (step call_load) σ = [EWarn MSG_NO_LOADFN]
  ∧ value (exec call_load σ) = value σ.
Proof.
  intros Hlf σ.
  assert (loadFn (opts σ) = None) as Hσ.
  { unfold σ. rewrite opts_reachable. destruct options as [o|]; [|done].
    by rewrite (proj1 (proj2 (merge_opts_callbacks o))). }
  assert (initialized σ = Resolved (VObj ∅) ∧ suspended σ = ∅
          ∧ ELoad ∉ trace σ) as (Hi & Hs & Ht).
  { subst σ. clear Hσ.
    assert (initialized (createModel options) = Resolved (VObj ∅)
            ∧ suspended (createModel options) = ∅
            ∧ (ELoad ∉ trace (createModel options))
            ∧ loadFn (opts (createModel options)) = None) as Hinit.
    { rewrite (createModel_idle options Hlf). simpl.
      split_and!; [done | done | by intros ?%elem_of_nil |].
      destruct options as [o|]; [|done].
      by rewrite (proj1 (proj2 (merge_opts_callbacks o))). }
    revert Hinit. generalize (createModel options). unfold run.
    induction cs as [|c cs IH]; intros σ (Hi & Hs & Ht & Hl);
      [done|]. simpl. apply IH.
    destruct (exec_trace c σ) as [Htr Hall].
    assert (ELoad ∉ trace (exec c σ)) as Ht'.
    { rewrite Htr. intros [?|Hin]%elem_of_app; [done|].
      rewrite Forall_forall in Hall. apply Hall in Hin as [_ [? Hsome]].
      by rewrite Hl in Hsome. }
    rewrite opts_exec.
    destruct (exec_frame c σ)
      as [(Hs' & Hi' & _)|[(_ & f & Hf & _)|(n & ld & _ & Hn & _)]].
    - by rewrite Hs', Hi', Hs, Hi.
    - by rewrite Hl in Hf.
    - by rewrite Hs in Hn. }
  pose proof (cLoad_eq σ) as Heq. rewrite Hσ in Heq.
  assert ((step call_load σ).2 = log [EWarn MSG_NO_LOADFN] σ) as Hstep.
  { simpl. unfold mbind, M_bind. by rewrite Heq. }
  split_and!; [by rewrite (createModel_idle options Hlf) | done | done | |].
  - by apply (emitted_log _ _ σ).
  - unfold exec. by rewrite Hstep.
Qed.

Lemma without_loadFn_ready_and_never_loads_witness :
  let σ := run [call_set (VNum 3); call_load] (createModel (Some saving)) in
  initialized σ = Resolved (VObj ∅)
  ∧ emitted (step call_load) σ = [EWarn MSG_NO_LOADFN]
  ∧ value (exec call_load σ) = value σ.
Proof.
  pose proof (without_loadFn_ready_and_never_loads (Some saving)
                [call_set (VNum 3); call_load] eq_refl)
    as (_ & Hi & _ & Hem & Hv).
  split; [exact Hi|]. split; [exact Hem | exact Hv].
Defined.

(** X2.  The callbacks passed at construction stay the configured ones for
    the life of the container: no call replaces or drops them. *)
Theorem callbacks_are_fixed o cs :
  let σ := run cs (createModel (Some o)) in
  saveFn (opts σ) = saveFn o
  ∧ loadFn (opts σ) = loadFn o
  ∧ mutateFn (opts σ) = mutateFn o
  ∧ onInitialized (opts σ) = onInitialized o.
Proof.
  intros σ. unfold σ. rewrite opts_reachable. simpl. unfold spread_prop. simpl.
  by repeat case_match.
Qed.

(** X3.  Every notification a call makes carries the value the store holds
    when the call returns, and goes to a callback that was subscribed
    before the call or is being subscribed by it. *)
Theorem notifications_carry_final_value c σ r v :
  ENotify r v ∈ emitted (step c) σ →
  v = value (exec c σ) ∧ (r ∈ subscribers σ ∨ c = call_subscribe r).
Proof.
  intros Hin. destruct (exec_trace c σ) as [_ Hall].
  rewrite Forall_forall in Hall. exact (Hall _ Hin).
Qed.

Lemma notifications_carry_final_value_witness :
  let σ := run [call_subscribe 4%nat] (createModel (Some saving)) in
  VNum 1 = value (exec (call_update (λ _, VNum 1)) σ)
  ∧ (4%nat ∈ subscribers σ
     ∨ call_update (λ _, VNum 1) = call_subscribe 4%nat).
Proof.
  apply (notifications_carry_final_value (call_update (λ _, VNum 1))
           (run [call_subscribe 4%nat] (createModel (Some saving)))
           4%nat (VNum 1)).
  vm_compute. do 2 apply list_elem_of_further. apply list_elem_of_here.
Defined.

(** X4.  Only [set], [update] and [mutate] call save: subscribing,
    unsubscribing, starting a load and the resolution of a load (which
    assigns the loaded value to the store) never do. *)
Theorem only_write_paths_save c σ :
  ¬ write_path c → saved (emitted (step c) σ) = [].
Proof.
  intros Hc. destruct (exec_trace c σ) as [_ Hall].
  apply saved_without_saves. eapply Forall_impl; [exact Hall|].
  intros [] He; try done. by destruct He as (_ & ? & _).
Qed.

Lemma only_write_paths_save_witness :
  let σ := createModel (Some (persistent (VObj {[ "a" := VNum 1 ]}))) in
  value (exec (load_resolves 0) σ) = VObj {[ "a" := VNum 1 ]}
  ∧ saved (emitted (step (load_resolves 0)) σ) = [].
Proof.
  split; [reflexivity|].
  apply (only_write_paths_save (load_resolves 0)
           (createModel (Some (persistent (VObj {[ "a" := VNum 1 ]}))))).
  intros H. exact H.
Defined.

(** X5.  A container constructed without a save function never calls
    save, whatever calls are made on it. *)
Theorem without_saveFn_nothing_is_saved options cs :
  (options ≫= saveFn) = None →
  saved (trace (run cs (createModel options))) = [].
Proof.
  intros Hsf.
  assert (saveFn (opts (createModel options)) = None) as Hσ.
  { rewrite opts_createModel. destruct options as [o|]; [|done].
    by rewrite (proj1 (merge_opts_callbacks o)). }
  assert (saved (trace (createModel options)) = []) as Ht.
  { destruct (options ≫= loadFn) as [lf|] eqn:Hlf.
    - destruct options as [o|]; [|done].
      by rewrite (createModel_loading o lf Hlf).
    - by rewrite (createModel_idle options Hlf). }
  revert Hσ Ht. generalize (createModel options). unfold run.
  induction cs as [|c cs IH]; intros σ Hσ Ht; [done|].
  simpl. apply IH; [by rewrite opts_exec|].
  destruct (exec_trace c σ) as [-> Hall].
  rewrite saved_app, Ht. simpl. apply saved_without_saves.
  eapply Forall_impl; [exact Hall|].
  intros [] He; try done. destruct He as (Hf & _). by rewrite Hσ in Hf.
Qed.

Lemma without_saveFn_nothing_is_saved_witness :
  saved (trace (run [call_set (VNum 3); call_update (λ _, VNum 4);
                     call_mutate (VObj ∅)]
                    (createModel (Some no_options)))) = [].
Proof.
  apply (without_saveFn_nothing_is_saved (Some no_options)
           [call_set (VNum 3); call_update (λ _, VNum 4);
            call_mutate (VObj ∅)]).
  reflexivity.
Defined.

(** ** Readiness *)

(** X6.  Whether readiness is pending, fulfilled or rejected changes only
    when the load [INITIALIZED] awaits resolves while readiness is pending;
    readiness then resolves to the loaded value if that is populated and
    rejects with [undefined] otherwise. *)
Theorem readiness_changes_only_at_awaited_load c σ :
  settlement (initialized (exec c σ)) ≠ settlement (initialized σ) →
  initialized σ = Pending
  ∧ ∃ n ld, c = load_resolves n
      ∧ awaited σ = Some n
      ∧ suspended σ !! n = Some ld
      ∧ initialized (exec c σ)
        = if truthy ld then Resolved ld else Rejected VUndefined.
Proof.
  intros Hne.
  destruct (exec_frame c σ)
    as [(_ & Hi & _)|[(_ & f & _ & Heq)|(n & ld & -> & Hn & Heq)]].
  - by rewrite Hi in Hne.
  - by rewrite Heq in Hne.
  - rewrite Heq in Hne |- *. simpl in *.
    destruct (decide (awaited σ = Some n)) as [Ha|Ha].
    + rewrite bool_decide_eq_true_2 in Hne |- * by done.
      destruct (initialized σ); try done. split; [done|]. by exists n, ld.
    + by rewrite bool_decide_eq_false_2 in Hne by done.
Qed.

Lemma readiness_changes_only_at_awaited_load_witness :
  let σ := createModel (Some (persistent VNull)) in
  initialized σ = Pending
  ∧ ∃ n ld, load_resolves 0 = load_resolves n
      ∧ awaited σ = Some n
      ∧ suspended σ !! n = Some ld
      ∧ initialized (exec (load_resolves 0) σ)
        = if truthy ld then Resolved ld else Rejected VUndefined.
Proof.
  apply (readiness_changes_only_at_awaited_load (load_resolves 0)
           (createModel (Some (persistent VNull)))).
  vm_compute. discriminate.
Defined.

(** X7.  Readiness settles once: after it has been fulfilled or rejected,
    no sequence of calls makes it pending again or turns one outcome into
    the other. *)
Theorem readiness_settles_once cs σ :
  settlement (initialized σ) ≠ pending →
  settlement (initialized (run cs σ)) = settlement (initialized σ).
Proof.
  revert σ. unfold run. induction cs as [|c cs IH]; intros σ Hσ; [done|].
  simpl.
  assert (initialized (exec c σ) = initialized σ) as Heq.
  { destruct (exec_frame c σ)
      as [(_ & Hi & _)|[(_ & f & _ & ->)|(n & ld & _ & _ & ->)]];
      [done | done |].
    simpl. case_bool_decide; [|done]. by destruct (initialized σ). }
  rewrite IH; [by rewrite Heq | by rewrite Heq].
Qed.

Lemma readiness_settles_once_witness :
  let σ := exec (load_resolves 0) (createModel (Some (persistent VNull))) in
  settlement
    (initialized (run [call_load; load_resolves 1; call_set (VNum 2)] σ))
  = rejected.
Proof.
  apply (readiness_settles_once
           [call_load; load_resolves 1; call_set (VNum 2)]
           (exec (load_resolves 0) (createModel (Some (persistent VNull))))).
  vm_compute. discriminate.
Defined.

(** ** [load] *)

(** X8.  When a load in flight resolves, a populated result becomes the
    store's value, overwriting whatever was written meanwhile, and the
    subscribers are notified unless the store finds it unchanged; an empty
    result changes nothing and is silent.  Either way the load is no longer
    in flight. *)
Theorem load_resolution_commits_populated_result σ n ld :
  suspended σ !! n = Some ld →
  let σ' := exec (load_resolves n) σ in
  value σ' = (if truthy ld then ld else value σ)
  ∧ emitted (step (load_resolves n)) σ
    = (if truthy ld then commit_events σ ld else [])
  ∧ suspended σ' = delete n (suspended σ).
Proof.
  intros Hn σ'. pose proof (resume_eq n σ) as Heq. rewrite Hn in Heq.
  split_and!.
  - subst σ'. unfold exec. simpl. by rewrite Heq.
  - apply (emitted_log _ _ (resumed n ld σ)); [simpl; by rewrite Heq | done].
  - subst σ'. unfold exec. simpl. by rewrite Heq.
Qed.

Lemma load_resolution_commits_populated_result_witness :
  let σ := run [call_set (VNum 3)]
               (createModel (Some (persistent (VObj {[ "a" := VNum 1 ]})))) in
  value σ = VNum 3
  ∧ value (exec (load_resolves 0) σ) = VObj {[ "a" := VNum 1 ]}.
Proof.
  split; [reflexivity|].
  exact (proj1 (load_resolution_commits_populated_result
                  (run [call_set (VNum 3)]
                     (createModel (Some (persistent (VObj {[ "a" := VNum 1 ]})))))
                  0%nat (VObj {[ "a" := VNum 1 ]}) eq_refl)).
Defined.

(** X9.  With a load function configured, [load()] calls it exactly once
    and changes neither the value nor readiness; when that load then
    resolves, the store holds its result if populated and its old value
    otherwise. *)
Theorem load_then_resolution σ f :
  loadFn (opts σ) = Some f →
  let σ1 := exec call_load σ in
  let σ2 := exec (load_resolves (loads σ)) σ1 in
  emitted (step call_load) σ = [ELoad]
  ∧ value σ1 = value σ
  ∧ initialized σ1 = initialized σ
  ∧ value σ2 = (if truthy (f (loads σ)) then f (loads σ) else value σ).
Proof.
  intros Hf σ1 σ2. pose proof (cLoad_eq σ) as Heq. rewrite Hf in Heq.
  assert (σ1 = log [ELoad]
                 (set_suspended (S (loads σ))
                    (<[loads σ := f (loads σ)]> (suspended σ)) σ).2) as H1.
  { subst σ1. unfold exec. simpl. unfold mbind, M_bind. by rewrite Heq. }
  split_and!.
  - apply (emitted_log _ _ (set_suspended (S (loads σ))
                              (<[loads σ := f (loads σ)]> (suspended σ)) σ).2);
      [|done]. fold (exec call_load σ). by fold σ1.
  - by rewrite H1.
  - by rewrite H1.
  - subst σ2. unfold exec. simpl. rewrite resume_eq, H1. simpl.
    by rewrite lookup_insert_eq.
Qed.

Lemma load_then_resolution_witness :
  let σ := run [call_set (VNum 3)]
               (createModel (Some (persistent (VObj {[ "a" := VNum 1 ]})))) in
  emitted (step call_load) σ = [ELoad]
  ∧ value (exec (load_resolves 1) (exec call_load σ)) = VObj {[ "a" := VNum 1 ]}.
Proof.
  pose proof (load_then_resolution
                (run [call_set (VNum 3)]
                   (createModel (Some (persistent (VObj {[ "a" := VNum 1 ]})))))
                (λ _, VObj {[ "a" := VNum 1 ]}) eq_refl)
    as (Hem & _ & _ & Hv).
  split; [exact Hem | exact Hv].
Defined.

(** ** [set], again *)

Lemma safe_not_equal_same_primitive v :
  is_object v = false → Writable.safe_not_equal v v = false.
Proof.
  unfold Writable.safe_not_equal.
  destruct v; simpl; try done; intros _; rewrite orb_false_r;
    apply negb_false_iff.
  - by destruct b.
  - apply Z.eqb_refl.
  - apply String.eqb_refl.
Qed.

(** X10.  [set] of a populated value always goes through: the store then
    holds it, [get] returns it, the subscribers are notified before save is
    called, and save (if configured) is called exactly once, with it. *)
Theorem set_populated_commits_then_saves σ v :
  truthy v = true →
  (cSet v σ).1 = Normal ()
  ∧ get (cSet v σ).2 = v
  ∧ emitted (cSet v) σ = commit_events σ v ++ save_events σ v
  ∧ saved (emitted (cSet v) σ)
    = match saveFn (opts σ) with Some _ => [v] | None => [] end
  ∧ notified_before_saved (emitted (cSet v) σ).
Proof.
  intros Hv. pose proof (cSet_eq v σ) as Heq. rewrite Hv in Heq. simpl in Heq.
  assert (emitted (cSet v) σ = commit_events σ v ++ save_events σ v) as Hem.
  { apply (emitted_log _ _ (with_value v σ)); [by rewrite Heq | done]. }
  rewrite Hem, Heq. split_and!; [done | done | done | |].
  - rewrite saved_app, saved_commit_events. unfold save_events.
    by destruct (saveFn (opts σ)).
  - intros i j e e' Hi Hj He He'.
    assert (i < length (commit_events σ v))%nat as Hlt.
    { apply lookup_app_Some in Hi as [Hi|[_ Hi]]; [by eapply lookup_lt_Some|].
      apply list_elem_of_lookup_2 in Hi. unfold save_events in Hi.
      case_match; [|by apply elem_of_nil in Hi].
      apply elem_of_cons in Hi as [->|Hi]; [done | by apply elem_of_nil in Hi]. }
    apply lookup_app_Some in Hj as [Hj|[Hge _]]; [|lia].
    apply list_elem_of_lookup_2 in Hj. unfold commit_events in Hj.
    case_match; [|by apply elem_of_nil in Hj].
    apply elem_of_cons in Hj as [->|Hj]; [done|].
    apply list_elem_of_fmap in Hj as (? & -> & _). done.
Qed.

Lemma set_populated_commits_then_saves_witness :
  let σ := run [call_subscribe 0%nat] (createModel (Some saving)) in
  get (cSet (VNum 1) σ).2 = VNum 1
  ∧ emitted (cSet (VNum 1)) σ
    = [EStore (VNum 1); ENotify 0 (VNum 1); ESave "save" (VNum 1)].
Proof.
  pose proof (set_populated_commits_then_saves
                (run [call_subscribe 0%nat] (createModel (Some saving)))
                (VNum 1) eq_refl) as (_ & Hget & Hem & _).
  split; [exact Hget | exact Hem].
Defined.

(** X11.  [set] of the populated primitive the store already holds neither
    assigns nor notifies, yet save is called again with it. *)
Theorem set_same_primitive_only_saves σ v :
  truthy v = true →
  is_object v = false →
  value σ = v →
  cSet v σ = (Normal (), log (save_events σ v) σ)
  ∧ emitted (cSet v) σ = save_events σ v.
Proof.
  intros Hv Hprim Hσ. pose proof (cSet_eq v σ) as Heq.
  rewrite Hv in Heq. simpl in Heq.
  assert (commit_events σ v = []) as Hc.
  { unfold commit_events. rewrite Hσ.
    by rewrite safe_not_equal_same_primitive. }
  rewrite Hc in Heq. simpl in Heq. rewrite <- Hσ in Heq at 3.
  rewrite with_value_id in Heq. split; [done|].
  apply (emitted_log _ _ σ); [by rewrite Heq | done].
Qed.

Lemma set_same_primitive_only_saves_witness :
  let σ := run [call_subscribe 0%nat; call_set (VStr "on")]
               (createModel (Some saving)) in
  emitted (cSet (VStr "on")) σ = [ESave "save" (VStr "on")].
Proof.
  exact (proj2 (set_same_primitive_only_saves
                  (run [call_subscribe 0%nat; call_set (VStr "on")]
                     (createModel (Some saving)))
                  (VStr "on") eq_refl eq_refl eq_refl)).
Defined.

(** ** [mutate], again *)



(** X13.  The default [mutate] of a mutation without own keys (an empty
    object, a number, a boolean) keeps the store's value, whatever it is,
    but still calls save with it, even when it is [undefined], and hands it
    back to the store, which notifies again when the value is an object. *)
Theorem default_mutate_without_keys σ mutation :
  mutateFn (opts σ) = None →
  own_entries mutation = Some [] →
  mutate mutation σ
  = (Normal (),
     log (save_events σ (value σ) ++ commit_events σ (value σ)) σ)
  ∧ value (mutate mutation σ).2 = value σ
  ∧ emitted (mutate mutation) σ
    = save_events σ (value σ) ++ commit_events σ (value σ).
Proof.
  intros Hf He.
  assert (mutate mutation σ
          = (Normal (),
             log (save_events σ (value σ) ++ commit_events σ (value σ)) σ))
    as Heq.
  { unfold mutate, Writable.update. unfold_M. rewrite Hf, He.
    unfold mbind, M_bind. simpl. rewrite call_saveFn_eq. simpl.
    rewrite set_eq. f_equal. unfold commit_events. simpl.
    by rewrite <- log_log. }
  split_and!; [done | by rewrite Heq |].
  apply (emitted_log _ _ σ); [by rewrite Heq | done].
Qed.

Lemma default_mutate_without_keys_witness :
  emitted (mutate (VObj ∅)) (createModel (Some saving))
  = [ESave "save" VUndefined].
Proof.
  exact (proj2 (proj2 (default_mutate_without_keys
                         (createModel (Some saving)) (VObj ∅)
                         eq_refl eq_refl))).
Defined.

Lemma has_property_own (o : gmap string JsVal) k :
  is_Some (o !! k) → has_property (VObj o) k = true.
Proof.
  intros Hk. unfold has_property. simpl.
  rewrite (bool_decide_eq_true_2 (is_Some (o !! k))) by done.
  by rewrite bool_decide_eq_true_2 by eauto.
Qed.

Lemma has_property_not_own (o o' : gmap string JsVal) k :
  has_property (VObj o) k = false → o' !! k = None →
  has_property (VObj o') k = false.
Proof.
  unfold has_property. simpl. intros Ho Ho'. rewrite Ho'.
  destruct (o !! k) as [y|]; [|exact Ho].
  rewrite (bool_decide_eq_true_2 (is_Some (Some y))) in Ho by eauto.
  by rewrite bool_decide_eq_true_2 in Ho by eauto.
Qed.

(** X14.  On a plain object, the default [mutate] of a descriptor that has
    no own [__proto__] key unless the object has one is idempotent on the
    value: applying the same descriptor a second time leaves the value the
    first application produced. *)
Theorem default_mutate_idempotent σ (cur p : gmap string JsVal) :
  mutateFn (opts σ) = None →
  value σ = VObj cur →
  p !! "__proto__" = None ∨ is_Some (cur !! "__proto__") →
  let σ1 := exec (call_mutate (VObj p)) σ in
  value (exec (call_mutate (VObj p)) σ1) = value σ1.
Proof.
  intros Hf Hv Hp σ1.
  destruct (mutate_default_object σ cur p Hf Hv Hp) as (r & Heq & Hr).
  assert (opts σ1 = opts σ) as Ho by apply opts_exec.
  assert (value σ1 = VObj r) as Hv1.
  { subst σ1. unfold exec. simpl. by rewrite Heq. }
  destruct (mutate_default_object σ1 r p) as (r' & Heq' & Hr');
    [by rewrite Ho | done | |].
  { destruct Hp as [Hp|[y Hy]]; [by left|]. right.
    rewrite Hr. destruct (p !! "__proto__"); [|by eauto].
    rewrite has_property_own by eauto. eauto. }
  unfold exec at 1. simpl. rewrite Heq', Hv1. simpl. f_equal.
  apply map_eq. intros k. rewrite Hr'.
  destruct (p !! k) as [x|] eqn:Hpk; [|done].
  pose proof (Hr k) as Hrk. rewrite Hpk in Hrk.
  destruct (has_property (VObj cur) k) eqn:Hk.
  - by rewrite has_property_own by (rewrite Hrk; eauto).
  - by rewrite (has_property_not_own cur r k Hk Hrk).
Qed.

Lemma default_mutate_idempotent_witness :
  let σ := run [call_set (VObj {[ "x" := VNum 1 ]})] (createModel (Some saving)) in
  let p : gmap string JsVal :=
    <[ "toString" := VNum 7 ]> (<[ "y" := VNum 9 ]> {[ "x" := VNum 2 ]}) in
  value (exec (call_mutate (VObj p)) (exec (call_mutate (VObj p)) σ))
  = value (exec (call_mutate (VObj p)) σ).
Proof.
  apply (default_mutate_idempotent
           (run [call_set (VObj {[ "x" := VNum 1 ]})] (createModel (Some saving)))
           {[ "x" := VNum 1 ]}
           (<[ "toString" := VNum 7 ]> (<[ "y" := VNum 9 ]> {[ "x" := VNum 2 ]}))).
  - reflexivity.
  - reflexivity.
  - left. reflexivity.
Defined.

Lemma unknown_key_events_known v entries :
  Forall (λ kx : string * JsVal, is_Some (find_property v kx.1)) entries →
  unknown_key_events v entries = [].
Proof.
  unfold unknown_key_events. induction 1 as [|kx l Hkx _ IH]; [done|].
  cbn [flat_map]. by rewrite bool_decide_eq_true_2, IH by done.
Qed.

(** X15.  When every key of the descriptor is on the current object, the
    default [mutate] logs nothing and the new value is the descriptor laid
    over the current object: the descriptor's value where it has the key,
    the old value elsewhere. *)
Theorem default_mutate_known_keys_is_union σ (cur p : gmap string JsVal) :
  mutateFn (opts σ) = None →
  value σ = VObj cur →
  dom p ⊆ dom cur →
  value (exec (call_mutate (VObj p)) σ) = VObj (p ∪ cur)
  ∧ emitted (mutate (VObj p)) σ
    = save_events σ (VObj (p ∪ cur))
      ++ EStore (VObj (p ∪ cur))
         :: map (λ run, ENotify run (VObj (p ∪ cur))) (subscribers σ).
Proof.
  intros Hf Hv Hdom.
  assert (∀ k, is_Some (p !! k) → is_Some (cur !! k)) as Hown.
  { intros k Hk. by apply elem_of_dom, Hdom, elem_of_dom. }
  destruct (mutate_default_object σ cur p Hf Hv) as (r & Heq & Hr).
  { destruct (p !! "__proto__") eqn:Hp; [right; apply Hown; eauto | by left]. }
  assert (r = p ∪ cur) as ->.
  { apply map_eq. intros k. rewrite Hr, lookup_union.
    destruct (p !! k) as [x|] eqn:Hk.
    - rewrite has_property_own by (apply Hown; eauto).
      by destruct (cur !! k).
    - by destruct (cur !! k). }
  assert (unknown_key_events (VObj cur) (map_to_list p) = []) as Hnone.
  { apply unknown_key_events_known, Forall_forall.
    intros [k x] Hin%elem_of_map_to_list. cbn [fst].
    assert (has_property (VObj cur) k = true) as Hk
      by (apply has_property_own, Hown; eauto).
    unfold has_property in Hk. by apply bool_decide_eq_true_1 in Hk. }
  rewrite Hnone in Heq. simpl in Heq. split.
  - unfold exec. simpl. by rewrite Heq.
  - apply (emitted_log _ _ (with_value (VObj (p ∪ cur)) σ));
      [by rewrite Heq | done].
Qed.

Lemma default_mutate_known_keys_is_union_witness :
  let σ := run [call_set (VObj (<[ "y" := VNum 5 ]> {[ "x" := VNum 1 ]}))]
               (createModel (Some saving)) in
  value (exec (call_mutate (VObj {[ "x" := VNum 2 ]})) σ)
  = VObj (<[ "y" := VNum 5 ]> {[ "x" := VNum 2 ]}).
Proof.
  refine (proj1 (default_mutate_known_keys_is_union
                   (run [call_set (VObj (<[ "y" := VNum 5 ]> {[ "x" := VNum 1 ]}))]
                      (createModel (Some saving)))
                   (<[ "y" := VNum 5 ]> {[ "x" := VNum 1 ]})
                   {[ "x" := VNum 2 ]} eq_refl eq_refl _)).
  apply (bool_decide_unpack _). by vm_compute.
Defined.
